(** * bdd100k/label/to_rle.py: conversion of poly2d annotations to RLE masks

    A shallow embedding of the conversion pipeline of [to_rle.py]
    ([frames_to_rle], [frames_to_rles], [seg_to_rles], [segtrack_to_rles],
    [main]) and the properties of its orchestration logic.

    Python objects are references: a [Frame] holds a list of references to
    [Label] objects that live in a store, and [sorted] builds a new list of
    the same references.  External collaborators (the scalabel rasterizer,
    the grouper, the loaders) are parameters of the development; every call
    that is observable from outside is recorded as an [Event].

    Conventions of the model:
    - the rasterizer [frame_to_rles] may raise, the grouper
      [group_and_sort] may fail an assertion on its input and the
      constructor of [BDD100KConfig] may reject its keyword; [save],
      [os.makedirs], [load], [load_bdd100k_config], [bdd100k_to_scalabel]
      and [rle_to_box2d] return;
    - paths are POSIX paths;
    - scores are binary64 floats and [sorted] compares them with [<]: on
      keys without NaN it is the stable sort; with a NaN among the keys
      the order CPython reaches is a parameter of the development;
    - the pool of [frames_to_rles] cuts the units into the chunks of
      [Pool.starmap]; the chunks are taken in submission order, each in a
      worker on its own copy of the labels;
    - logging and the [QT_QPA_PLATFORM] environment variable are left out. *)

From Stdlib Require Import ZArith List String Ascii Floats Sorted Permutation Lia.
From stdpp Require Import gmap strings list.

Set Warnings "-inexact-float".
Open Scope Z_scope.
Open Scope string_scope.
Open Scope list_scope.

(** ** Data model (scalabel.label.typing) *)

(** A reference to a [Label] object. *)
Abbreviation loc := positive.

Record ImageSize := { width : Z; height : Z }.

(** [Frame]: the fields the pipeline reads.  [labels] is [Optional[List[Label]]];
    the list holds references. *)
Record Frame := {
  name : string;
  videoName : option string;
  frameIndex : option Z;
  labels : option (list loc)
}.

(** [Config]: only [imageSize] is read here. *)
Record Config := { imageSize : option ImageSize }.

(** The result of [load]: the frames and the optionally embedded config. *)
Record Dataset := { ds_frames : list Frame; ds_config : option Config }.

(** Exceptions the code can raise, and [NeverReturns] for a call that
    blocks for ever: nothing after it runs either. *)
Inductive Exn :=
| AssertionError (msg : string)
| IndexError
| KeyError
| ValueError (msg : string)
| RasterError
| ValidationError
| NeverReturns.

(** The [--mode] choices of [parse_args]. *)
Inductive Mode := sem_seg | drivable | lane_mark | pan_seg | ins_seg | seg_track.

Definition mode_name (m : Mode) : string :=
  match m with
  | sem_seg => "sem_seg"
  | drivable => "drivable"
  | lane_mark => "lane_mark"
  | pan_seg => "pan_seg"
  | ins_seg => "ins_seg"
  | seg_track => "seg_track"
  end.

(** [argparse.Namespace] produced by [parse_args]. *)
Record Args := {
  input : string;
  output : string;
  mode : Mode;
  nproc : Z;
  config : option string
}.

(** ** Strings and paths *)

Definition startswith_sep (s : string) : bool :=
  match s with
  | String c _ => Ascii.eqb c "/"
  | EmptyString => false
  end.

Fixpoint endswith_sep (s : string) : bool :=
  match s with
  | EmptyString => false
  | String c EmptyString => Ascii.eqb c "/"
  | String _ s' => endswith_sep s'
  end.

(** [os.path.join a b] (posixpath, two components). *)
Definition os_path_join (a b : string) : string :=
  if startswith_sep b then b
  else if orb (String.eqb a "") (endswith_sep a) then a +:+ b
  else a +:+ "/" +:+ b.

(** ** Float keys: Python's [<] on [float] is [PrimFloat.ltb] *)

(** The stable sort that only uses [<] on the keys: what
    [sorted(xs, key=key)] returns when the keys are totally ordered.  An
    element moves past a later one only when the later key is strictly
    smaller, so equal keys keep their input order. *)
Fixpoint insert_by {A : Type} (key : A -> float) (x : A) (l : list A) : list A :=
  match l with
  | [] => [x]
  | y :: l' =>
      if (key y <? key x)%float then y :: insert_by key x l'
      else x :: y :: l'
  end.

Definition sorted {A : Type} (key : A -> float) (l : list A) : list A :=
  foldr (insert_by key) [] l.

#[global] Instance Mode_eq_dec : EqDecision Mode.
Proof. solve_decision. Defined.

Section Pipeline.

(** Opaque blobs of scalabel: polygons, masks and boxes. *)
Variables Poly2D RLE Box2D : Type.

(** [Label]: the fields the pipeline reads or writes, and two it never
    touches ([id], [category]). *)
Record Label := {
  label_id : string;
  category : option string;
  score : option float;
  poly2d : option (list Poly2D);
  rle : option RLE;
  box2d : option Box2D
}.

(** A frame as [save] serialises it: the labels dereferenced. *)
Record SavedFrame := {
  sf_name : string;
  sf_videoName : option string;
  sf_frameIndex : option Z;
  sf_labels : option (list Label)
}.

(** Observable calls. *)
Inductive Event :=
| EvLoad (path : string) (n : Z)
| EvLoadConfig (name_or_path : string)
| EvTranslate (frames : list Frame)
| EvMakedirs (path : string)
| EvRasterize (shape : ImageSize) (poly2ds : list (list Poly2D))
| EvSave (path : string) (frames : list SavedFrame).

(** The BDD100K configuration class (bdd100k.common.typing) wraps a scalabel
    [Config], read as its field [scalabel].  [BDD100KConfig_init kw c] is
    the constructor called with the one keyword argument [kw=c]; [None] is
    the [ValidationError] of a call the class rejects. *)
Variable BDD100KConfig : Type.
Variable scalabel : BDD100KConfig -> Config.
Variable BDD100KConfig_init : string -> Config -> option BDD100KConfig.

(** The order CPython's [sorted] reaches on a key sequence that holds a
    NaN, as the list of the input positions in output order.  With a NaN
    the comparisons are not an order and the result is whatever the merge
    sort's comparisons lead to: a function of the keys alone. *)
Variable nan_order : list float -> list nat.

(** External collaborators.  [group_and_sort] checks its input with
    assertions: [None] is a failed assertion, raised without a message. *)
Variable frame_to_rles : ImageSize -> list (list Poly2D) -> option (list RLE).
Variable rle_to_box2d : RLE -> Box2D.
Variable group_and_sort : list Frame -> option (list (list Frame)).
Variable load : string -> Z -> gmap loc Label * Dataset.
Variable load_bdd100k_config : string -> BDD100KConfig.
Variable bdd100k_to_scalabel :
  list Frame -> BDD100KConfig -> gmap loc Label -> gmap loc Label * list Frame.

(** ** Computations: a label store, emitted events, and a result or an
    exception *)

Record Run (A : Type) := MkRun {
  events : list Event;
  final : gmap loc Label;
  result : Exn + A
}.
Arguments MkRun {A} _ _ _.
Arguments events {A} _.
Arguments final {A} _.
Arguments result {A} _.

Definition M (A : Type) : Type := gmap loc Label -> Run A.

Definition ret {A} (a : A) : M A := fun h => MkRun [] h (inr a).

Definition raise {A} (e : Exn) : M A := fun h => MkRun [] h (inl e).

Definition bind {A B} (m : M A) (k : A -> M B) : M B :=
  fun h =>
    let r := m h in
    match result r with
    | inl e => MkRun (events r) (final r) (inl e)
    | inr a =>
        let r' := k a (final r) in
        MkRun (events r ++ events r') (final r') (result r')
    end.

Notation "x <- m ;; k" := (bind m (fun x => k))
  (at level 100, m at next level, right associativity).
Notation "m ;;; k" := (bind m (fun _ => k))
  (at level 100, right associativity).

Definition emit (e : Event) : M unit := fun h => MkRun [e] h (inr tt).

Definition assert (b : bool) (msg : string) : M unit :=
  if b then ret tt else raise (AssertionError msg).

(** ** frames_to_rle *)

(** Reading a field through a reference.  In Python a reference always
    points to an object; a reference that is not in the store reads as a
    label with no score and no shape, and writing through it does nothing. *)
Definition score_of (h : gmap loc Label) (l : loc) : option float :=
  h !! l ≫= score.

Definition poly2d_of (h : gmap loc Label) (l : loc) : option (list Poly2D) :=
  h !! l ≫= poly2d.

(** [float(label.score)], the sort key. *)
Definition score_key (h : gmap loc Label) (l : loc) : float :=
  default 0%float (score_of h l).

(** [label.rle = rle; label.box2d = rle_to_box2d(rle)] *)
Definition set_rle (r : RLE) (lb : Label) : Label :=
  {| label_id := label_id lb; category := category lb; score := score lb;
     poly2d := poly2d lb; rle := Some r; box2d := Some (rle_to_box2d r) |}.

(** [for label, rle in zip(labels_, rles): ...] *)
Fixpoint assign_rles (pairs : list (loc * RLE)) (h : gmap loc Label) : gmap loc Label :=
  match pairs with
  | [] => h
  | (l, r) :: ps => assign_rles ps (alter (set_rle r) l h)
  end.

(** No key of the list is NaN. *)
Definition keys_ordered {A} (key : A -> float) (l : list A) : bool :=
  forallb (fun x => negb (is_nan (key x))) l.

(** [sorted(l, key=key)].  Without a NaN among the keys, the stable sort;
    with one, the elements in the order [nan_order] gives for the keys (an
    answer that is not a permutation of the positions is not CPython's and
    is ignored). *)
Definition py_sorted {A} (key : A -> float) (l : list A) : list A :=
  if keys_ordered key l then sorted key l
  else
    let order := nan_order (key <$> l) in
    if bool_decide (order ≡ₚ seq 0 (length l))
    then omap (fun i => l !! i) order
    else sorted key l.

(** The rendering order: all labels scored, sort by score; else as is. *)
Definition render_order (h : gmap loc Label) (labels_ : list loc) : list loc :=
  if forallb (fun l => bool_decide (is_Some (score_of h l))) labels_
  then py_sorted (score_key h) labels_
  else labels_.

(** The loop body of [frames_to_rle] for one frame. *)
Definition convert_frame (shape : ImageSize) (image_anns : Frame) : M unit :=
  match labels image_anns with
  | None => ret tt
  | Some labels_ =>
      if bool_decide (length labels_ = 0%nat) then ret tt
      else fun h =>
        let labels_ : list loc := render_order h labels_ in
        let poly2ds : list (list Poly2D) := omap (poly2d_of h) labels_ in
        match frame_to_rles shape poly2ds with
        | None => MkRun [EvRasterize shape poly2ds] h (inl RasterError)
        | Some rles =>
            MkRun [EvRasterize shape poly2ds]
                  (assign_rles (zip labels_ rles) h) (inr tt)
        end
  end.

Fixpoint for_each {A} (body : A -> M unit) (xs : list A) : M unit :=
  match xs with
  | [] => ret tt
  | x :: xs' => body x ;;; for_each body xs'
  end.

(** The label objects a list of references points to. *)
Definition deref_all (h : gmap loc Label) (ls : list loc) : list Label :=
  omap (fun l => h !! l) ls.

Definition snapshot (h : gmap loc Label) (f : Frame) : SavedFrame :=
  {| sf_name := name f; sf_videoName := videoName f;
     sf_frameIndex := frameIndex f;
     sf_labels := option_map (deref_all h) (labels f) |}.

(** [save(out_path, frames)] *)
Definition save (out_path : string) (frames : list Frame) : M unit :=
  fun h => MkRun [EvSave out_path (snapshot h <$> frames)] h (inr tt).

Definition frames_to_rle (out_path : string) (shape : ImageSize)
    (frames : list Frame) : M unit :=
  for_each (convert_frame shape) frames ;;;
  save out_path frames.

(** ** frames_to_rles *)

(** A pool worker receives a pickled copy of its arguments: what it writes
    to the labels stays in the worker, what it saves is observable. *)
Definition in_worker {A} (m : M A) : M A :=
  fun h => let r := m h in MkRun (events r) h (result r).

(** [Pool.starmap] (multiprocessing/pool.py, [_map_async]) on an iterable
    of length [len] with [nproc] workers:
    [chunksize, extra = divmod(len, nproc * 4); if extra: chunksize += 1]. *)
Definition pool_chunksize (nproc : Z) (len : nat) : nat :=
  let slots := Z.to_nat (nproc * 4) in
  (len / slots + (if len mod slots =? 0 then 0 else 1))%nat.

(** [MapResult]: the number of chunk results the call waits for,
    [length // chunksize + bool(length % chunksize)], none for a chunk size
    of zero. *)
Definition pool_expected (len size : nat) : nat :=
  if (size =? 0)%nat then 0%nat
  else (len / size + (if len mod size =? 0 then 0 else 1))%nat.

(** [Pool._get_tasks]: the items cut into chunks of [size], the last one
    shorter. *)
Fixpoint chunks {A} (fuel size : nat) (l : list A) : list (list A) :=
  match fuel, l with
  | O, _ => []
  | _, [] => []
  | S fuel', _ => take size l :: chunks fuel' size (drop size l)
  end.

(** One chunk in a worker ([starmapstar]): its units one after the other
    on the worker's copy of the labels, the rest of the chunk dropped when
    a unit raises. *)
Definition run_chunk (chunk : list (string * (ImageSize * list Frame))) : M unit :=
  in_worker
    (for_each
       (fun u : string * (ImageSize * list Frame) => frames_to_rle u.1 u.2.1 u.2.2)
       chunk).

(** Every chunk runs whatever happens to the others; a failure is raised
    once all chunks are done. *)
Fixpoint run_chunks (batches : list (list (string * (ImageSize * list Frame)))) :
    M unit :=
  match batches with
  | [] => ret tt
  | chunk :: rest =>
      fun h =>
        let r := run_chunk chunk h in
        let r' := run_chunks rest h in
        MkRun (events r ++ events r') h
              (match result r with
               | inl e => inl e
               | inr _ => result r'
               end)
  end.

(** [Pool(nproc).starmap(frames_to_rle, tqdm(zip(out_paths, shapes,
    frames_list), total=len(out_paths)))].  The length the pool works with
    is the one [tqdm] reports, [len(out_paths)], while the tasks are the
    zipped triples: when these make fewer chunks than the pool waits for,
    the call runs them and never returns. *)
Definition frames_to_rles (nproc : Z) (out_paths : list string)
    (shapes : list ImageSize) (frames_list : list (list Frame)) : M unit :=
  if (nproc <? 1)%Z then raise (ValueError "Number of processes must be at least 1")
  else
    let units := zip out_paths (zip shapes frames_list) in
    let size := pool_chunksize nproc (length out_paths) in
    let batches := chunks (length units) size units in
    fun h =>
      let r := run_chunks batches h in
      if (length batches <? pool_expected (length out_paths) size)%nat
      then MkRun (events r) h (inl NeverReturns)
      else r.

(** ** seg_to_rles *)

Definition seg_to_rles (frames : list Frame) (out_path : string)
    (config : Config) (nproc : Z) : M unit :=
  match imageSize config with
  | None => raise (AssertionError "Seg conversion requires imageSize in config")
  | Some img_shape => frames_to_rle out_path img_shape frames
  end.

(** ** segtrack_to_rles *)

(** The loop that fills [out_paths] and [shapes]. *)
Fixpoint segtrack_units (out_base : string) (img_shape : ImageSize)
    (frames_list : list (list Frame)) : Exn + (list string * list ImageSize) :=
  match frames_list with
  | [] => inr ([], [])
  | video_anns :: rest =>
      match video_anns with
      | [] => inl IndexError
      | f0 :: _ =>
          match videoName f0 with
          | None =>
              inl (AssertionError
                     "SegTrack conversion requires videoName in annotations")
          | Some video_name =>
              match segtrack_units out_base img_shape rest with
              | inl e => inl e
              | inr (out_paths, shapes) =>
                  inr (os_path_join out_base (video_name +:+ ".json") :: out_paths,
                       img_shape :: shapes)
              end
          end
      end
  end.

Definition segtrack_to_rles (frames : list Frame) (out_base : string)
    (config : Config) (nproc : Z) : M unit :=
  match group_and_sort frames with
  | None => raise (AssertionError "")
  | Some frames_list =>
      emit (EvMakedirs out_base) ;;;
      match imageSize config with
      | None => raise (AssertionError "Conversion requires imageSize in config.")
      | Some img_shape =>
          match segtrack_units out_base img_shape frames_list with
          | inl e => raise e
          | inr (out_paths, shapes) =>
              frames_to_rles nproc out_paths shapes frames_list
          end
      end
  end.

(** ** main *)

Definition ToRLEsFunc : Type := list Frame -> string -> Config -> Z -> M unit.

Definition convert_funcs (m : Mode) : option ToRLEsFunc :=
  match m with
  | sem_seg => Some seg_to_rles
  | drivable => Some seg_to_rles
  | pan_seg => Some seg_to_rles
  | ins_seg => Some seg_to_rles
  | seg_track => Some segtrack_to_rles
  | lane_mark => None
  end.

Definition do_load (path : string) (n : Z) : M Dataset :=
  fun _ => let r := load path n in MkRun [EvLoad path n] r.1 (inr r.2).

Definition do_load_bdd100k_config (name_or_path : string) : M BDD100KConfig :=
  fun h => MkRun [EvLoadConfig name_or_path] h
             (inr (load_bdd100k_config name_or_path)).

Definition do_bdd100k_to_scalabel (frames : list Frame)
    (cfg : BDD100KConfig) : M (list Frame) :=
  fun h => let r := bdd100k_to_scalabel frames cfg h in
           MkRun [EvTranslate frames] r.1 (inr r.2).

(** The [if args.config ... elif dataset.config ... else] of [main]. *)
Definition resolve_config (args : Args) (dataset : Dataset) : M BDD100KConfig :=
  match config args with
  | Some path => do_load_bdd100k_config path
  | None =>
      match ds_config dataset with
      | Some c =>
          match BDD100KConfig_init "config" c with
          | Some bdd100k_config => ret bdd100k_config
          | None => raise ValidationError
          end
      | None => do_load_bdd100k_config (mode_name (mode args))
      end
  end.

Definition main (args : Args) : M unit :=
  assert (bool_decide
            (mode args ∈ [sem_seg; drivable; pan_seg; ins_seg; seg_track])) "" ;;;
  dataset <- do_load (input args) (nproc args) ;;
  bdd100k_config <- resolve_config args dataset ;;
  frames <- (if bool_decide (mode args ∈ [ins_seg; seg_track])
             then do_bdd100k_to_scalabel (ds_frames dataset) bdd100k_config
             else ret (ds_frames dataset)) ;;
  match convert_funcs (mode args) with
  | None => raise KeyError
  | Some convert =>
      convert frames (output args) (scalabel bdd100k_config) (nproc args)
  end.

(** * Properties *)

(** ** The computation monad *)

Lemma bind_ok {A B} (m : M A) (k : A -> M B) h a :
  result (m h) = inr a ->
  bind m k h =
    MkRun (events (m h) ++ events (k a (final (m h))))
          (final (k a (final (m h)))) (result (k a (final (m h)))).
Proof. intros E. unfold bind. now rewrite E. Qed.

Lemma bind_raise {A B} (m : M A) (k : A -> M B) h e :
  result (m h) = inl e ->
  bind m k h = MkRun (events (m h)) (final (m h)) (inl e).
Proof. intros E. unfold bind. now rewrite E. Qed.

(** ** Labels up to their mask and box *)

(** A label with its two derived fields cleared: what the conversion must
    never change. *)
Definition without_mask (lb : Label) : Label :=
  {| label_id := label_id lb; category := category lb; score := score lb;
     poly2d := poly2d lb; rle := None; box2d := None |}.

Definition sf_without_masks (sf : SavedFrame) : SavedFrame :=
  {| sf_name := sf_name sf; sf_videoName := sf_videoName sf;
     sf_frameIndex := sf_frameIndex sf;
     sf_labels := option_map (List.map without_mask) (sf_labels sf) |}.

(** Two stores that hold the same objects, equal up to masks and boxes. *)
Definition same_but_masks (h h' : gmap loc Label) : Prop :=
  forall l, without_mask <$> (h' !! l) = without_mask <$> (h !! l).

Lemma same_but_masks_refl h : same_but_masks h h.
Proof. now intros l. Qed.

Lemma same_but_masks_trans h1 h2 h3 :
  same_but_masks h1 h2 -> same_but_masks h2 h3 -> same_but_masks h1 h3.
Proof. intros H12 H23 l. now rewrite H23, H12. Qed.

Lemma without_mask_set_rle r lb : without_mask (set_rle r lb) = without_mask lb.
Proof. reflexivity. Qed.

Lemma alter_set_rle_same_but_masks r l h :
  same_but_masks h (alter (set_rle r) l h).
Proof.
  intros l'. rewrite lookup_alter. case_decide as E; [subst l' | reflexivity].
  destruct (h !! l); reflexivity.
Qed.

Lemma assign_rles_same_but_masks pairs h :
  same_but_masks h (assign_rles pairs h).
Proof.
  revert h. induction pairs as [|[l r] ps IH]; intros h; simpl.
  - apply same_but_masks_refl.
  - eapply same_but_masks_trans; [apply alter_set_rle_same_but_masks | apply IH].
Qed.

Lemma convert_frame_same_but_masks shape f h :
  same_but_masks h (final (convert_frame shape f h)).
Proof.
  unfold convert_frame. destruct (labels f) as [ls|]; [|apply same_but_masks_refl].
  case_bool_decide; [apply same_but_masks_refl|].
  destruct (frame_to_rles _ _); simpl;
    [apply assign_rles_same_but_masks | apply same_but_masks_refl].
Qed.

Lemma for_each_same_but_masks {A} (body : A -> M unit) xs h :
  (forall x h0, same_but_masks h0 (final (body x h0))) ->
  same_but_masks h (final (for_each body xs h)).
Proof.
  intros Hbody. revert h. induction xs as [|x xs IH]; intros h; simpl.
  - apply same_but_masks_refl.
  - unfold bind. destruct (result (body x h)) as [e|[]] eqn:E; simpl.
    + apply Hbody.
    + eapply same_but_masks_trans; [apply Hbody | apply IH].
Qed.

Lemma deref_all_same_but_masks h h' ls :
  same_but_masks h h' ->
  List.map without_mask (deref_all h' ls) = List.map without_mask (deref_all h ls).
Proof.
  intros H. unfold deref_all. induction ls as [|l ls IH]; [reflexivity|].
  specialize (H l). cbn [omap list_omap].
  destruct (h' !! l) as [lb'|], (h !! l) as [lb|]; try discriminate H; [|exact IH].
  change (Some (without_mask lb') = Some (without_mask lb)) in H.
  cbn [List.map]. f_equal; [congruence | exact IH].
Qed.

Lemma snapshot_same_but_masks h h' f :
  same_but_masks h h' ->
  sf_without_masks (snapshot h' f) = sf_without_masks (snapshot h f).
Proof.
  intros H. unfold sf_without_masks, snapshot; simpl.
  destruct (labels f) as [ls|]; simpl; [|reflexivity].
  now rewrite (deref_all_same_but_masks h h' ls H).
Qed.

Lemma save_run out_path frames h :
  save out_path frames h = MkRun [EvSave out_path (snapshot h <$> frames)] h (inr tt).
Proof. reflexivity. Qed.

(** An event that writes a file. *)
Definition is_save (e : Event) : bool :=
  match e with EvSave _ _ => true | _ => false end.

(** An event that calls the rasterizer. *)
Definition is_rasterize (e : Event) : bool :=
  match e with EvRasterize _ _ => true | _ => false end.

Lemma convert_frame_no_save shape f h :
  List.filter is_save (events (convert_frame shape f h)) = [].
Proof.
  unfold convert_frame. destruct (labels f) as [ls|]; [|reflexivity].
  case_bool_decide; [reflexivity|]. now destruct (frame_to_rles _ _).
Qed.

Lemma for_each_no_save {A} (body : A -> M unit) xs h :
  (forall x h0, List.filter is_save (events (body x h0)) = []) ->
  List.filter is_save (events (for_each body xs h)) = [].
Proof.
  intros Hbody. revert h. induction xs as [|x xs IH]; intros h; simpl; [reflexivity|].
  unfold bind. destruct (result (body x h)) as [e|[]]; simpl; [apply Hbody|].
  now rewrite List.filter_app, Hbody, IH.
Qed.

(** What [frames_to_rle] does, in one equation per outcome of the loop. *)
Lemma frames_to_rle_run out_path shape frames h :
  let loop := for_each (convert_frame shape) frames h in
  frames_to_rle out_path shape frames h =
    match result loop with
    | inl e => MkRun (events loop) (final loop) (inl e)
    | inr _ =>
        MkRun (events loop ++ [EvSave out_path (snapshot (final loop) <$> frames)])
              (final loop) (inr tt)
    end.
Proof. reflexivity. Qed.

(** C9.  Sorting by score builds a separate list: a frame's own label list
    is never reordered.  After [frames_to_rle] every label object equals
    what it was up to its [rle] and [box2d] fields, and when the run
    succeeds the one file written holds every frame with its labels in
    their input order and all their other fields as they were. *)
Theorem frames_to_rle_keeps_label_order out_path shape frames h :
  let r := frames_to_rle out_path shape frames h in
  same_but_masks h (final r) /\
  (result r = inr tt ->
   exists pre saved,
     events r = pre ++ [EvSave out_path saved] /\
     List.filter is_save pre = [] /\
     saved = snapshot (final r) <$> frames /\
     sf_without_masks <$> saved = sf_without_masks <$> (snapshot h <$> frames)).
Proof.
  cbv zeta. rewrite frames_to_rle_run. cbv zeta.
  pose proof (for_each_same_but_masks (convert_frame shape) frames h
                (convert_frame_same_but_masks shape)) as Hsame.
  destruct (result (for_each (convert_frame shape) frames h)) as [e|[]] eqn:E; simpl.
  - split; [exact Hsame | discriminate].
  - split; [exact Hsame|]. intros _.
    eexists _, _. split; [reflexivity|].
    split; [apply for_each_no_save, convert_frame_no_save|].
    split; [reflexivity|].
    rewrite <- !list_fmap_compose. apply list_fmap_ext.
    intros i f _. simpl. now apply snapshot_same_but_masks.
Qed.

(** C8.  A frame whose label list is absent or empty is skipped: no event
    (so no call to the rasterizer), the store is left as it was, and what
    [save] will persist for that frame does not depend on what happens to
    the other frames. *)
Theorem frame_without_labels_is_noop shape f h :
  labels f = None \/ labels f = Some [] ->
  convert_frame shape f h = MkRun [] h (inr tt) /\
  forall h', snapshot h' f = snapshot h f.
Proof.
  intros [E|E]; unfold convert_frame, snapshot; rewrite E; simpl; split; reflexivity.
Qed.

(** C10.  [seg_to_rles] ignores its worker count: for any two counts the
    runs are the same, and with an image size in the config the run is the
    one sequential [frames_to_rle] on the given frames and path (no pool is
    created, so even a count below one is accepted). *)
Theorem seg_to_rles_nproc_irrelevant frames out_path cfg (n1 n2 : Z) h :
  seg_to_rles frames out_path cfg n1 h = seg_to_rles frames out_path cfg n2 h /\
  (forall img_shape,
     imageSize cfg = Some img_shape ->
     seg_to_rles frames out_path cfg n1 h =
       frames_to_rle out_path img_shape frames h).
Proof.
  split; [reflexivity|].
  intros img_shape E. unfold seg_to_rles. now rewrite E.
Qed.


(** ** Order on float keys *)

Lemma is_nan_false_spec (x : float) : is_nan x = false -> Prim2SF x <> S754_nan.
Proof.
  unfold is_nan. rewrite FloatAxioms.eqb_spec. intros H E.
  rewrite E in H. discriminate.
Qed.

Ltac sf_cases :=
  repeat match goal with
  | |- context [Z.compare ?a ?b] => destruct (Z.compare_spec a b); subst
  | |- context [Pos.compare_cont Eq ?a ?b] =>
      change (Pos.compare_cont Eq a b) with (Pos.compare a b);
      destruct (Pos.compare_spec a b); subst
  | H : context [Z.compare ?a ?b] |- _ => destruct (Z.compare_spec a b); subst
  | H : context [Pos.compare_cont Eq ?a ?b] |- _ =>
      change (Pos.compare_cont Eq a b) with (Pos.compare a b) in H;
      destruct (Pos.compare_spec a b); subst
  end; simpl in *; try congruence; try lia.

Lemma SFleb_total x y :
  x <> S754_nan -> y <> S754_nan -> SFltb y x = false -> SFleb x y = true.
Proof.
  unfold SFltb, SFleb.
  destruct x as [[]|[]| |[] mx ex], y as [[]|[]| |[] my ey];
    simpl; try congruence; intros _ _; sf_cases.
Qed.

Lemma SFleb_trans x y z :
  SFleb x y = true -> SFleb y z = true -> SFleb x z = true.
Proof.
  unfold SFleb.
  destruct x as [[]|[]| |[] mx ex], y as [[]|[]| |[] my ey],
           z as [[]|[]| |[] mz ez]; simpl; try congruence; sf_cases.
Qed.

Lemma SFltb_leb x y : SFltb x y = true -> SFleb x y = true.
Proof. unfold SFltb, SFleb. now destruct (SFcompare x y) as [[]|]. Qed.

Lemma SFltb_eqb x y k : SFltb y x = true -> SFeqb x k = true -> SFeqb y k = false.
Proof.
  unfold SFltb, SFeqb.
  destruct x as [[]|[]| |[] mx ex], y as [[]|[]| |[] my ey],
           k as [[]|[]| |[] mk ek]; simpl; try congruence; sf_cases.
Qed.

(** On keys that are not NaN, [<=] is total and transitive. *)
Lemma float_leb_total (x y : float) :
  is_nan x = false -> is_nan y = false ->
  (y <? x)%float = false -> (x <=? y)%float = true.
Proof.
  rewrite ltb_spec, leb_spec. intros Hx Hy.
  apply SFleb_total; now apply is_nan_false_spec.
Qed.

Lemma float_leb_trans (x y z : float) :
  (x <=? y)%float = true -> (y <=? z)%float = true -> (x <=? z)%float = true.
Proof. rewrite !leb_spec. apply SFleb_trans. Qed.

Lemma float_ltb_leb (x y : float) : (x <? y)%float = true -> (x <=? y)%float = true.
Proof. rewrite ltb_spec, leb_spec. apply SFltb_leb. Qed.

(** ** [sorted] *)

Section Sorted.
Context {A : Type} (key : A -> float).

Definition key_le (a b : A) : Prop := (key a <=? key b)%float = true.

Lemma insert_by_Permutation x l : Permutation (insert_by key x l) (x :: l).
Proof.
  induction l as [|y l IH]; simpl; [reflexivity|].
  destruct (key y <? key x)%float; [|reflexivity].
  rewrite IH. apply perm_swap.
Qed.

Lemma sorted_Permutation l : Permutation (sorted key l) l.
Proof.
  induction l as [|x l IH]; simpl; [reflexivity|].
  rewrite insert_by_Permutation. now constructor.
Qed.

Lemma insert_by_StronglySorted x l :
  is_nan (key x) = false ->
  Forall (fun y => is_nan (key y) = false) l ->
  StronglySorted key_le l ->
  StronglySorted key_le (insert_by key x l).
Proof.
  intros Hx Hl Hs. induction Hs as [|y l Hs IH Hy]; simpl.
  - repeat constructor.
  - apply Forall_cons in Hl as [Hny Hl].
    destruct (key y <? key x)%float eqn:E.
    + constructor; [now apply IH|].
      rewrite insert_by_Permutation. constructor; [|exact Hy].
      now apply float_ltb_leb.
    + assert (key_le x y) as Hxy by now apply float_leb_total.
      constructor; [now constructor|].
      constructor; [exact Hxy|].
      eapply Forall_impl; [exact Hy|].
      intros z Hyz. now apply float_leb_trans with (key y).
Qed.

Lemma sorted_StronglySorted l :
  Forall (fun y => is_nan (key y) = false) l ->
  StronglySorted key_le (sorted key l).
Proof.
  induction l as [|x l IH]; intros H; simpl; [constructor|].
  apply Forall_cons in H as [Hx Hl].
  apply insert_by_StronglySorted; [exact Hx| |now apply IH].
  now rewrite sorted_Permutation.
Qed.

Lemma filter_Permutation_bool (p : A -> bool) l l' :
  Permutation l l' -> Permutation (List.filter p l) (List.filter p l').
Proof.
  induction 1 as [|x l l' _ IH|x y l|l1 l2 l3 _ IH1 _ IH2]; simpl.
  - reflexivity.
  - destruct (p x); [now constructor | exact IH].
  - destruct (p x), (p y); try reflexivity. apply perm_swap.
  - now transitivity (List.filter p l2).
Qed.

Lemma filter_StronglySorted (R : A -> A -> Prop) (p : A -> bool) l :
  StronglySorted R l -> StronglySorted R (List.filter p l).
Proof.
  induction 1 as [|x l _ IH Hx]; simpl; [constructor|].
  destruct (p x); [|exact IH].
  constructor; [exact IH|].
  apply Forall_forall. intros y Hy.
  apply list_elem_of_In, List.filter_In in Hy as [Hy _].
  rewrite Forall_forall in Hx. now apply Hx, list_elem_of_In.
Qed.
(** [sorted] is stable: labels of equal score keep their relative order. *)
Lemma insert_by_filter_eq x l k :
  List.filter (fun y => (key y =? k)%float) (insert_by key x l) =
  List.filter (fun y => (key y =? k)%float) (x :: l).
Proof.
  induction l as [|y l IH]; [reflexivity|].
  cbn [insert_by]. destruct (key y <? key x)%float eqn:E; [|reflexivity].
  cbn [List.filter] in *. rewrite IH.
  destruct (key x =? k)%float eqn:Ex; [|reflexivity].
  rewrite ltb_spec in E. rewrite FloatAxioms.eqb_spec in Ex.
  rewrite FloatAxioms.eqb_spec, (SFltb_eqb _ _ _ E Ex). reflexivity.
Qed.

Lemma sorted_stable l k :
  List.filter (fun y => (key y =? k)%float) (sorted key l) =
  List.filter (fun y => (key y =? k)%float) l.
Proof.
  induction l as [|x l IH]; [reflexivity|].
  cbn [sorted foldr]. fold (sorted key l). rewrite insert_by_filter_eq.
  cbn [List.filter]. now rewrite IH.
Qed.

End Sorted.

(** ** [py_sorted] *)

Lemma insert_by_ext {X} (key1 key2 : X -> float) x l :
  (forall y, key1 y = key2 y) -> insert_by key1 x l = insert_by key2 x l.
Proof.
  intros Hk. induction l as [|y l IH]; [reflexivity|].
  cbn [insert_by]. now rewrite !Hk, IH.
Qed.

Lemma sorted_ext {X} (key1 key2 : X -> float) l :
  (forall y, key1 y = key2 y) -> sorted key1 l = sorted key2 l.
Proof.
  intros Hk. induction l as [|x l IH]; [reflexivity|].
  cbn [sorted foldr]. fold (sorted key1 l) (sorted key2 l).
  now rewrite IH, (insert_by_ext key1 key2 x _ Hk).
Qed.

Lemma omap_lookup_seq {X} (pre l : list X) :
  omap (fun i => (pre ++ l) !! i) (seq (length pre) (length l)) = l.
Proof.
  revert pre. induction l as [|x l IH]; intros pre; [reflexivity|].
  cbn [length seq omap list_omap].
  rewrite list_lookup_middle by reflexivity. cbn. f_equal.
  specialize (IH (pre ++ [x])).
  rewrite <- app_assoc, length_app in IH. cbn in IH.
  now rewrite Nat.add_1_r in IH.
Qed.

Lemma keys_ordered_Forall {X} (key : X -> float) (l : list X) :
  keys_ordered key l = true <-> Forall (fun y => is_nan (key y) = false) l.
Proof.
  unfold keys_ordered. rewrite forallb_forall, Forall_forall. split.
  - intros H y Hy. apply list_elem_of_In in Hy.
    now apply Bool.negb_true_iff, H.
  - intros H y Hy. apply list_elem_of_In in Hy.
    now apply Bool.negb_true_iff, H.
Qed.

(** Without NaN keys [py_sorted] is the stable sort. *)
Lemma py_sorted_ordered {X} (key : X -> float) (l : list X) :
  Forall (fun y => is_nan (key y) = false) l -> py_sorted key l = sorted key l.
Proof.
  intros H. unfold py_sorted. now rewrite (proj2 (keys_ordered_Forall key l) H).
Qed.

Lemma py_sorted_Permutation {X} (key : X -> float) (l : list X) :
  Permutation (py_sorted key l) l.
Proof.
  unfold py_sorted. destruct (keys_ordered key l); [apply sorted_Permutation|].
  cbv zeta. case_bool_decide as Hp; [|apply sorted_Permutation].
  rewrite Hp. exact (eq_ind_r (fun k => k ≡ₚ l) (reflexivity l)
                       (omap_lookup_seq [] l)).
Qed.

Lemma py_sorted_ext {X} (key1 key2 : X -> float) (l : list X) :
  (forall y, key1 y = key2 y) -> py_sorted key1 l = py_sorted key2 l.
Proof.
  intros Hk. unfold py_sorted.
  assert (keys_ordered key1 l = keys_ordered key2 l) as ->.
  { unfold keys_ordered. induction l as [|x l IH]; [reflexivity|].
    cbn [forallb]. now rewrite Hk, IH. }
  assert (key1 <$> l = key2 <$> l) as ->.
  { apply list_fmap_ext. intros i y _. apply Hk. }
  now rewrite (sorted_ext key1 key2 l Hk).
Qed.

(** ** What is submitted to the rasterizer *)

(** The labels of a list that carry a polygon shape, in the list's order. *)
Definition shape_bearing (h : gmap loc Label) (ls : list loc) : list loc :=
  List.filter (fun l => bool_decide (is_Some (poly2d_of h l))) ls.

Lemma omap_poly2d_shape_bearing h ls :
  Forall2 (fun l p => poly2d_of h l = Some p)
          (shape_bearing h ls) (omap (poly2d_of h) ls).
Proof.
  unfold shape_bearing. induction ls as [|l ls IH]; simpl; [constructor|].
  destruct (poly2d_of h l) as [p|] eqn:E.
  - rewrite bool_decide_eq_true_2 by eauto. now constructor.
  - rewrite bool_decide_eq_false_2 by (intros [? ?]; discriminate). exact IH.
Qed.

Lemma render_order_Permutation h ls : Permutation (render_order h ls) ls.
Proof.
  unfold render_order. destruct (forallb _ ls); [apply py_sorted_Permutation | reflexivity].
Qed.

Lemma render_order_unscored h ls l :
  l ∈ ls -> score_of h l = None -> render_order h ls = ls.
Proof.
  intros Hin Hnone. unfold render_order.
  destruct (forallb _ ls) eqn:E; [|reflexivity].
  rewrite forallb_forall in E. apply list_elem_of_In in Hin.
  specialize (E l Hin). apply bool_decide_eq_true_1 in E as [s Hs]. congruence.
Qed.

Lemma render_order_scored h ls :
  (forall l, l ∈ ls -> exists s, score_of h l = Some s /\ is_nan s = false) ->
  StronglySorted (key_le (score_key h)) (render_order h ls).
Proof.
  intros Hall. unfold render_order.
  assert (Forall (fun l => is_nan (score_key h l) = false) ls) as Hnan.
  { apply Forall_forall. intros l Hl.
    destruct (Hall l Hl) as (s & Hs & Hn). unfold score_key. now rewrite Hs. }
  destruct (forallb _ ls) eqn:E;
    [rewrite py_sorted_ordered by exact Hnan; now apply sorted_StronglySorted|].
  exfalso. apply Bool.not_true_iff_false in E. apply E.
  apply forallb_forall. intros l Hl. apply list_elem_of_In in Hl.
  destruct (Hall l Hl) as (s & Hs & _). apply bool_decide_eq_true_2. eauto.
Qed.

Lemma convert_frame_events shape f h ls :
  labels f = Some ls -> ls <> [] ->
  events (convert_frame shape f h) =
    [EvRasterize shape (omap (poly2d_of h) (render_order h ls))].
Proof.
  intros E Hne. unfold convert_frame. rewrite E.
  rewrite bool_decide_eq_false_2 by (destruct ls; [congruence | discriminate]).
  now destruct (frame_to_rles _ _).
Qed.

(** C2.  For a frame with a non-empty label list the rasterizer is called
    once, with the polygon sets of the shape-bearing labels.  If every
    label carries a score (a number, not NaN), these are in ascending order
    of score; if some label carries no score, they are in the frame's own
    label order. *)
Theorem rasterizer_input_order shape f h ls :
  labels f = Some ls -> ls <> [] ->
  exists shaped polys,
    events (convert_frame shape f h) = [EvRasterize shape polys] /\
    Forall2 (fun l p => poly2d_of h l = Some p) shaped polys /\
    Permutation shaped (shape_bearing h ls) /\
    ((forall l, l ∈ ls -> exists s, score_of h l = Some s /\ is_nan s = false) ->
     StronglySorted (key_le (score_key h)) shaped) /\
    ((exists l, l ∈ ls /\ score_of h l = None) ->
     shaped = shape_bearing h ls).
Proof.
  intros E Hne.
  exists (shape_bearing h (render_order h ls)), (omap (poly2d_of h) (render_order h ls)).
  split; [now apply convert_frame_events|].
  split; [apply omap_poly2d_shape_bearing|].
  split; [apply filter_Permutation_bool, render_order_Permutation|].
  split.
  - intros Hall. apply filter_StronglySorted. now apply render_order_scored.
  - intros (l & Hin & Hnone). now rewrite (render_order_unscored h ls l).
Qed.


(** ** Zipping the masks back onto the labels *)

Lemma assign_rles_lookup_notin pairs h l :
  l ∉ pairs.*1 -> assign_rles pairs h !! l = h !! l.
Proof.
  revert h. induction pairs as [|[l' r] ps IH]; intros h Hnotin; [reflexivity|].
  cbn in Hnotin. apply not_elem_of_cons in Hnotin as [Hne Hnotin].
  cbn [assign_rles]. rewrite IH by exact Hnotin.
  now rewrite lookup_alter_ne.
Qed.



Lemma zip_fst_subseteq {X Y} (l : list X) (k : list Y) x :
  x ∈ (zip l k).*1 -> x ∈ l.
Proof.
  revert k. induction l as [|y l IH]; intros [|z k] Hx; cbn in Hx;
    try now apply elem_of_nil in Hx.
  apply elem_of_cons in Hx as [->|Hx]; [left | right; eauto].
Qed.



(** C1, at its failing input.  A frame whose first label has no polygon
    shape and whose second has one: the single mask returned for the second
    label's polygons is zipped onto the first label, which receives a mask
    and a box, and the shape-bearing label is left as it was. *)
Theorem shapeless_label_receives_mask shape f h l0 l1 lb0 lb1 p r :
  labels f = Some [l0; l1] -> l0 <> l1 ->
  h !! l0 = Some lb0 -> poly2d lb0 = None -> score lb0 = None ->
  h !! l1 = Some lb1 -> poly2d lb1 = Some p ->
  frame_to_rles shape [p] = Some [r] ->
  events (convert_frame shape f h) = [EvRasterize shape [p]] /\
  final (convert_frame shape f h) !! l0 = Some (set_rle r lb0) /\
  final (convert_frame shape f h) !! l1 = Some lb1.
Proof.
  intros E Hne H0 Hp0 Hs0 H1 Hp1 Hr.
  assert (render_order h [l0; l1] = [l0; l1]) as Hord.
  { apply (render_order_unscored h _ l0); [left|].
    unfold score_of. now rewrite H0. }
  assert (omap (poly2d_of h) [l0; l1] = [p]) as Hpolys.
  { cbn. unfold poly2d_of. rewrite H0, H1. cbn. now rewrite Hp0, Hp1. }
  unfold convert_frame. rewrite E. cbn [length bool_decide].
  rewrite bool_decide_eq_false_2 by discriminate.
  rewrite Hord, Hpolys, Hr. cbn.
  split; [reflexivity|]. split.
  - rewrite lookup_alter_eq, H0. reflexivity.
  - rewrite lookup_alter_ne by exact Hne. exact H1.
Qed.


(** ** Events of a conversion unit *)

Lemma convert_frame_events_rasterize shape f h :
  Forall (fun e => is_rasterize e = true) (events (convert_frame shape f h)).
Proof.
  unfold convert_frame. destruct (labels f) as [ls|]; [|constructor].
  case_bool_decide; [constructor|].
  destruct (frame_to_rles _ _); repeat constructor.
Qed.

Lemma for_each_events_Forall {A} (P : Event -> Prop) (body : A -> M unit) xs h :
  (forall x h0, Forall P (events (body x h0))) ->
  Forall P (events (for_each body xs h)).
Proof.
  intros Hbody. revert h. induction xs as [|x xs IH]; intros h; simpl; [constructor|].
  unfold bind. destruct (result (body x h)) as [e|[]]; simpl; [apply Hbody|].
  apply Forall_app. split; [apply Hbody | apply IH].
Qed.

(** A unit only rasterizes and saves. *)
Lemma frames_to_rle_events_Forall out_path shape frames h :
  Forall (fun e => is_rasterize e = true \/ is_save e = true)
         (events (frames_to_rle out_path shape frames h)).
Proof.
  rewrite frames_to_rle_run. cbv zeta.
  assert (Forall (fun e => is_rasterize e = true \/ is_save e = true)
            (events (for_each (convert_frame shape) frames h))) as Hloop.
  { apply for_each_events_Forall. intros f h0.
    eapply Forall_impl; [apply convert_frame_events_rasterize|]. now left. }
  destruct (result (for_each (convert_frame shape) frames h)) as [e|[]]; simpl;
    [exact Hloop|].
  apply Forall_app. split; [exact Hloop|]. constructor; [now right | constructor].
Qed.

Lemma frames_to_rle_saves out_path shape frames h :
  let r := frames_to_rle out_path shape frames h in
  List.filter is_save (events r) =
    match result r with
    | inl _ => []
    | inr _ => [EvSave out_path (snapshot (final r) <$> frames)]
    end.
Proof.
  cbv zeta. rewrite frames_to_rle_run. cbv zeta.
  pose proof (for_each_no_save (convert_frame shape) frames h
                (convert_frame_no_save shape)) as Hloop.
  destruct (result (for_each (convert_frame shape) frames h)) as [e|[]]; simpl;
    [exact Hloop|].
  now rewrite List.filter_app, Hloop.
Qed.

(** With a rasterizer that returns, a unit runs to its [save]. *)
Definition rasterizer_returns : Prop :=
  forall shape poly2ds, is_Some (frame_to_rles shape poly2ds).

Lemma convert_frame_returns shape f h :
  rasterizer_returns -> result (convert_frame shape f h) = inr tt.
Proof.
  intros Hret. unfold convert_frame. destruct (labels f) as [ls|]; [|reflexivity].
  case_bool_decide; [reflexivity|].
  destruct (Hret shape (omap (poly2d_of h) (render_order h ls))) as [rles ->].
  reflexivity.
Qed.

Lemma for_each_returns {A} (body : A -> M unit) xs h :
  (forall x h0, result (body x h0) = inr tt) ->
  result (for_each body xs h) = inr tt.
Proof.
  intros Hbody. revert h. induction xs as [|x xs IH]; intros h; simpl; [reflexivity|].
  unfold bind. rewrite Hbody. simpl. apply IH.
Qed.

Lemma frames_to_rle_returns out_path shape frames h :
  rasterizer_returns -> result (frames_to_rle out_path shape frames h) = inr tt.
Proof.
  intros Hret. rewrite frames_to_rle_run. cbv zeta.
  rewrite for_each_returns by (intros; now apply convert_frame_returns).
  reflexivity.
Qed.

(** ** segtrack_to_rles *)

(** The separator [os.path.join] puts after its first component. *)
Definition dir_sep (a : string) : string :=
  if orb (String.eqb a "") (endswith_sep a) then "" else "/".

(** A second component that is not absolute lands under the first. *)
Lemma os_path_join_relative a b :
  startswith_sep b = false -> os_path_join a b = a +:+ dir_sep a +:+ b.
Proof.
  intros Hb. unfold os_path_join, dir_sep. rewrite Hb.
  now destruct (orb (String.eqb a "") (endswith_sep a)).
Qed.

Lemma startswith_sep_app v s :
  startswith_sep v = false -> startswith_sep s = false ->
  startswith_sep (v +:+ s) = false.
Proof. now destruct v. Qed.

(** The output path of a group: from the sequence identifier of its first
    frame. *)
Definition video_path (out_base : string) (video_anns : list Frame) : option string :=
  match video_anns with
  | [] => None
  | f0 :: _ =>
      (fun video_name => os_path_join out_base (video_name +:+ ".json"))
        <$> videoName f0
  end.

Lemma segtrack_units_ok out_base img_shape frames_list :
  Forall (fun g => is_Some (video_path out_base g)) frames_list ->
  exists out_paths,
    segtrack_units out_base img_shape frames_list =
      inr (out_paths, replicate (length frames_list) img_shape) /\
    Forall2 (fun g p => video_path out_base g = Some p) frames_list out_paths.
Proof.
  induction 1 as [|g gs [p Hp] _ (paths & IH & Hall)]; simpl.
  - exists []. split; [reflexivity | constructor].
  - destruct g as [|f0 rest]; [discriminate|]. simpl in Hp.
    destruct (videoName f0) as [v|] eqn:Ev; [|discriminate].
    injection Hp as <-. rewrite IH.
    eexists. split; [reflexivity|]. constructor; [|exact Hall].
    simpl. now rewrite Ev.
Qed.

Lemma segtrack_units_missing_videoName out_base img_shape frames_list :
  Forall (fun g => g <> []) frames_list ->
  Exists (fun g => exists f0 rest, g = f0 :: rest /\ videoName f0 = None) frames_list ->
  exists msg, segtrack_units out_base img_shape frames_list = inl (AssertionError msg).
Proof.
  intros Hne Hex. induction frames_list as [|g gs IH]; [now apply Exists_nil in Hex|].
  apply Forall_cons in Hne as [Hg Hne]. simpl.
  destruct g as [|f0 rest]; [congruence|].
  destruct (videoName f0) as [v|] eqn:Ev; [|eauto].
  apply Exists_cons in Hex as [(f0' & rest' & Heq & Hnone)|Hex].
  - injection Heq as <- <-. congruence.
  - destruct (IH Hne Hex) as [msg ->]. eauto.
Qed.

Lemma segtrack_to_rles_run frames out_base cfg n h :
  segtrack_to_rles frames out_base cfg n h =
    match group_and_sort frames with
    | None => MkRun [] h (inl (AssertionError ""))
    | Some frames_list =>
        match imageSize cfg with
        | None =>
            MkRun [EvMakedirs out_base] h
                  (inl (AssertionError "Conversion requires imageSize in config."))
        | Some img_shape =>
            match segtrack_units out_base img_shape frames_list with
            | inl e => MkRun [EvMakedirs out_base] h (inl e)
            | inr (out_paths, shapes) =>
                let r := frames_to_rles n out_paths shapes frames_list h in
                MkRun (EvMakedirs out_base :: events r) (final r) (result r)
            end
        end
    end.
Proof.
  unfold segtrack_to_rles. destruct (group_and_sort frames) as [frames_list|];
    [|reflexivity].
  unfold bind, emit. cbn.
  destruct (imageSize cfg) as [s|]; [|reflexivity].
  destruct (segtrack_units _ _ _) as [e|[paths shapes]]; reflexivity.
Qed.

(** C3, as the code has it.  A frame whose [videoName] is [None] makes the
    run fail on an assertion before any unit is dispatched: nothing is
    rasterized or saved and no label is written.  Either the grouper
    rejects the frames itself, and then nothing at all has happened, or it
    returns groups (non-empty, covering the frames, each of frames sharing
    their identifier) and the assertion on the first frame of the unnamed
    group fails, after the output directory was created. *)
Theorem segtrack_missing_videoName_fails frames out_base cfg n h :
  (forall groups,
     group_and_sort frames = Some groups ->
     Forall (fun g => g <> []) groups /\
     (forall f, f ∈ frames -> exists g, g ∈ groups /\ f ∈ g) /\
     (forall g f f', g ∈ groups -> f ∈ g -> f' ∈ g ->
                     videoName f = videoName f')) ->
  (exists f, f ∈ frames /\ videoName f = None) ->
  let r := segtrack_to_rles frames out_base cfg n h in
  (exists msg, result r = inl (AssertionError msg)) /\
  events r = match group_and_sort frames with
             | Some _ => [EvMakedirs out_base]
             | None => []
             end /\
  final r = h.
Proof.
  intros Hgrouper (f & Hf & Hnone). cbv zeta.
  rewrite segtrack_to_rles_run.
  destruct (group_and_sort frames) as [groups|]; [|simpl; eauto].
  destruct (Hgrouper groups eq_refl) as (Hne & Hcover & Hsame).
  destruct (imageSize cfg) as [img_shape|]; [|simpl; eauto].
  destruct (segtrack_units_missing_videoName out_base img_shape groups Hne)
    as [msg ->]; [|simpl; eauto].
  destruct (Hcover f Hf) as (g & Hg & Hfg).
  apply Exists_exists. exists g. split; [exact Hg|].
  destruct g as [|f0 rest]; [now apply elem_of_nil in Hfg|].
  exists f0, rest. split; [reflexivity|].
  rewrite (Hsame (f0 :: rest) f0 f Hg ltac:(left) Hfg). exact Hnone.
Qed.

(** C4, as the code has it.  Whatever the mode, a config without
    [imageSize] makes the conversion fail on an assertion before anything
    is rasterized or saved, and no label is written; in [seg_track] mode
    the output directory has been created by then, unless the grouper has
    rejected the frames before. *)
Theorem missing_imageSize_aborts m convert frames out cfg n h :
  convert_funcs m = Some convert ->
  imageSize cfg = None ->
  let r := convert frames out cfg n h in
  (exists msg, result r = inl (AssertionError msg)) /\
  final r = h /\
  events r = (if bool_decide (m = seg_track)
              then match group_and_sort frames with
                   | Some _ => [EvMakedirs out]
                   | None => []
                   end
              else []).
Proof.
  intros Hc Hcfg. cbv zeta.
  destruct m; simpl in Hc; try discriminate; injection Hc as <-;
    rewrite ?segtrack_to_rles_run; unfold seg_to_rles; rewrite Hcfg;
    try destruct (group_and_sort frames); simpl; eauto.
Qed.

(** ** frames_to_rles *)

Lemma ceil_div_step (size len : nat) :
  (1 <= size)%nat -> (1 <= len)%nat ->
  (len / size + (if len mod size =? 0 then 0 else 1) =
   S ((len - size) / size + (if (len - size) mod size =? 0 then 0 else 1)))%nat.
Proof.
  intros Hs Hl. destruct (le_lt_dec len size) as [Hle|Hgt].
  - replace (len - size)%nat with 0%nat by lia.
    rewrite Nat.Div0.div_0_l, Nat.Div0.mod_0_l. cbn [Nat.eqb].
    destruct (Nat.eq_dec len size) as [->|Hne].
    + rewrite Nat.div_same, Nat.Div0.mod_same by lia. reflexivity.
    + rewrite Nat.div_small, Nat.mod_small by lia.
      destruct (Nat.eqb_spec len 0); lia.
  - replace len with ((len - size) + 1 * size)%nat at 1 2 by lia.
    rewrite Nat.div_add, Nat.Div0.mod_add by lia. lia.
Qed.

Lemma chunks_length {X} (fuel size : nat) (l : list X) :
  (1 <= size)%nat -> (length l <= fuel)%nat ->
  length (chunks fuel size l) = pool_expected (length l) size.
Proof.
  intros Hs. unfold pool_expected.
  destruct (Nat.eqb_spec size 0) as [->|_]; [lia|].
  revert l. induction fuel as [|fuel IH]; intros l Hl.
  - destruct l; [|cbn in Hl; lia]. cbn [length chunks].
    now rewrite Nat.Div0.div_0_l, Nat.Div0.mod_0_l.
  - destruct l as [|x l].
    + cbn [length chunks]. now rewrite Nat.Div0.div_0_l, Nat.Div0.mod_0_l.
    + cbn [chunks length]. rewrite IH by (rewrite length_drop; cbn in *; lia).
      rewrite length_drop.
      symmetry. apply (ceil_div_step size (length (x :: l))); cbn; lia.
Qed.

Lemma chunks_concat_sublist {X} (fuel size : nat) (l : list X) :
  sublist (concat (chunks fuel size l)) l.
Proof.
  revert l. induction fuel as [|fuel IH]; intros l; [apply sublist_nil_l|].
  destruct l as [|x l]; [constructor|].
  cbn [chunks concat]. rewrite <- (take_drop size (x :: l)) at 3.
  now apply sublist_app.
Qed.

Lemma chunks_concat {X} (fuel size : nat) (l : list X) :
  (1 <= size)%nat -> (length l <= fuel)%nat -> concat (chunks fuel size l) = l.
Proof.
  intros Hs. revert l. induction fuel as [|fuel IH]; intros l Hl.
  - destruct l; [reflexivity | cbn in Hl; lia].
  - destruct l as [|x l]; [reflexivity|].
    cbn [chunks concat]. rewrite IH by (rewrite length_drop; cbn in *; lia).
    apply take_drop.
Qed.

Lemma pool_chunksize_pos (n : Z) (len : nat) :
  1 <= n -> (1 <= len)%nat -> (1 <= pool_chunksize n len)%nat.
Proof.
  intros Hn Hl. unfold pool_chunksize.
  assert (4 <= Z.to_nat (n * 4))%nat as Hslots by lia.
  destruct (le_lt_dec (Z.to_nat (n * 4)) len) as [Hle|Hgt].
  - assert (1 <= len / Z.to_nat (n * 4))%nat; [|lia].
    apply Nat.div_le_lower_bound; lia.
  - rewrite Nat.div_small, Nat.mod_small by lia.
    destruct (Nat.eqb_spec len 0); lia.
Qed.

Lemma run_chunks_final batches h : final (run_chunks batches h) = h.
Proof. now destruct batches. Qed.

Lemma frames_to_rles_final n out_paths shapes frames_list h :
  final (frames_to_rles n out_paths shapes frames_list h) = h.
Proof.
  unfold frames_to_rles. destruct (n <? 1)%Z; [reflexivity|]. cbv zeta.
  destruct (_ <? _)%nat; [reflexivity | apply run_chunks_final].
Qed.

Lemma frames_to_rle_same_but_masks_final out_path shape frames h :
  same_but_masks h (final (frames_to_rle out_path shape frames h)).
Proof.
  rewrite frames_to_rle_run. cbv zeta.
  pose proof (for_each_same_but_masks (convert_frame shape) frames h
                (convert_frame_same_but_masks shape)) as H.
  now destruct (result (for_each (convert_frame shape) frames h)) as [e|[]].
Qed.

Lemma run_chunk_events_Forall (P : Event -> Prop) chunk h :
  (forall out_path shape frames h0,
     Forall P (events (frames_to_rle out_path shape frames h0))) ->
  Forall P (events (run_chunk chunk h)).
Proof.
  intros HP. unfold run_chunk, in_worker. cbn [events].
  apply for_each_events_Forall. intros u h0. apply HP.
Qed.

Lemma run_chunks_events_Forall (P : Event -> Prop) batches h :
  (forall out_path shape frames h0,
     Forall P (events (frames_to_rle out_path shape frames h0))) ->
  Forall P (events (run_chunks batches h)).
Proof.
  intros HP. induction batches as [|c bs IH]; [constructor|].
  cbn [run_chunks events]. apply Forall_app. split; [|exact IH].
  now apply run_chunk_events_Forall.
Qed.

Lemma frames_to_rles_events_Forall (P : Event -> Prop) n out_paths shapes
    frames_list h :
  (forall out_path shape frames h0,
     Forall P (events (frames_to_rle out_path shape frames h0))) ->
  Forall P (events (frames_to_rles n out_paths shapes frames_list h)).
Proof.
  intros HP. unfold frames_to_rles. destruct (n <? 1)%Z; [constructor|]. cbv zeta.
  destruct (_ <? _)%nat; cbn [events]; now apply run_chunks_events_Forall.
Qed.

(** What a unit saves, up to masks: its file, holding its frames. *)
Definition saved_for (h : gmap loc Label) (u : string * (ImageSize * list Frame))
    (e : Event) : Prop :=
  exists saved,
    e = EvSave u.1 saved /\
    sf_without_masks <$> saved = sf_without_masks <$> (snapshot h <$> u.2.2).

Lemma chunk_saves chunk h h' :
  rasterizer_returns ->
  same_but_masks h h' ->
  result (for_each
            (fun u : string * (ImageSize * list Frame) =>
               frames_to_rle u.1 u.2.1 u.2.2) chunk h') = inr tt /\
  Forall2 (saved_for h) chunk
    (List.filter is_save
       (events (for_each
                  (fun u : string * (ImageSize * list Frame) =>
                     frames_to_rle u.1 u.2.1 u.2.2) chunk h'))).
Proof.
  intros Hret. revert h'. induction chunk as [|u us IH]; intros h' H.
  - split; [reflexivity | constructor].
  - cbn [for_each].
    rewrite (bind_ok _ _ _ tt) by now apply frames_to_rle_returns.
    cbn [result events].
    assert (same_but_masks h (final (frames_to_rle u.1 u.2.1 u.2.2 h'))) as H'.
    { eapply same_but_masks_trans;
        [exact H | apply frames_to_rle_same_but_masks_final]. }
    destruct (IH _ H') as [IHr IHs]. split; [exact IHr|].
    rewrite List.filter_app, frames_to_rle_saves.
    rewrite frames_to_rle_returns by exact Hret.
    cbn [app]. constructor; [|exact IHs].
    eexists. split; [reflexivity|].
    rewrite <- !list_fmap_compose. apply list_fmap_ext. intros i f _. cbn.
    now apply snapshot_same_but_masks.
Qed.

Lemma run_chunks_saves batches h :
  rasterizer_returns ->
  result (run_chunks batches h) = inr tt /\
  Forall2 (saved_for h) (concat batches)
          (List.filter is_save (events (run_chunks batches h))).
Proof.
  intros Hret. induction batches as [|c bs [IHr IHs]].
  - split; [reflexivity | constructor].
  - destruct (chunk_saves c h h Hret (same_but_masks_refl h)) as [Hr Hs].
    cbn [run_chunks result events concat]. unfold run_chunk, in_worker.
    cbn [result events]. rewrite Hr. split; [exact IHr|].
    rewrite List.filter_app. now apply Forall2_app.
Qed.

(** With at least one worker and no more paths than shapes or frame lists,
    the pool receives as many batches as it awaits, and they hold the
    zipped units. *)
Lemma frames_to_rles_batches n out_paths shapes frames_list h :
  1 <= n ->
  (length out_paths <= length shapes)%nat ->
  (length out_paths <= length frames_list)%nat ->
  exists batches,
    frames_to_rles n out_paths shapes frames_list h = run_chunks batches h /\
    concat batches = zip out_paths (zip shapes frames_list).
Proof.
  intros Hn Hs Hf. unfold frames_to_rles.
  destruct (n <? 1)%Z eqn:E; [apply Z.ltb_lt in E; lia|]. cbv zeta.
  set (units := zip out_paths (zip shapes frames_list)).
  set (size := pool_chunksize n (length out_paths)).
  assert (length units = length out_paths) as Hlen
    by (unfold units; rewrite !length_zip_with; lia).
  exists (chunks (length units) size units).
  destruct (Nat.eq_dec (length out_paths) 0%nat) as [Hz|Hnz].
  - destruct units; [|cbn in Hlen; lia]. split; [|reflexivity].
    cbn [length chunks]. rewrite Hz. unfold pool_expected.
    rewrite Nat.Div0.div_0_l, Nat.Div0.mod_0_l.
    now destruct (size =? 0)%nat.
  - assert (1 <= size)%nat by (apply pool_chunksize_pos; lia).
    split; [|apply chunks_concat; lia].
    replace (_ <? _)%nat with false; [reflexivity|].
    symmetry. apply Nat.ltb_ge. rewrite chunks_length, Hlen by lia. lia.
Qed.

(** Then, with a rasterizer that returns, [frames_to_rles] returns after
    one save per zipped unit, in order. *)
Lemma frames_to_rles_run n out_paths shapes frames_list h :
  1 <= n -> rasterizer_returns ->
  (length out_paths <= length shapes)%nat ->
  (length out_paths <= length frames_list)%nat ->
  let r := frames_to_rles n out_paths shapes frames_list h in
  result r = inr tt /\ final r = h /\
  Forall2 (saved_for h) (zip out_paths (zip shapes frames_list))
          (List.filter is_save (events r)).
Proof.
  intros Hn Hret Hs Hf. cbv zeta.
  destruct (frames_to_rles_batches n out_paths shapes frames_list h Hn Hs Hf)
    as (batches & -> & <-).
  destruct (run_chunks_saves batches h Hret) as [Hr Hsv].
  split; [exact Hr|]. split; [apply run_chunks_final | exact Hsv].
Qed.

Lemma zip_units out_base img_shape frames_list out_paths :
  Forall2 (fun g p => video_path out_base g = Some p) frames_list out_paths ->
  Forall2 (fun g (u : string * (ImageSize * list Frame)) =>
             video_path out_base g = Some u.1 /\ u.2 = (img_shape, g))
          frames_list
          (zip out_paths (zip (replicate (length frames_list) img_shape) frames_list)).
Proof.
  induction 1 as [|g p gs ps Hp _ IH]; cbn; constructor; [now split | exact IH].
Qed.

(** A string that holds a path separator. *)
Fixpoint has_sep (s : string) : bool :=
  match s with
  | EmptyString => false
  | String c s' => orb (Ascii.eqb c "/") (has_sep s')
  end.

Lemma has_sep_startswith_sep s : has_sep s = false -> startswith_sep s = false.
Proof. destruct s as [|c s]; [reflexivity|]. cbn. now intros [-> _]%Bool.orb_false_elim. Qed.

(** C5, as the code has it.  In [seg_track] mode, when the preconditions
    hold (an image size, a non-empty output directory name, frames the
    grouper accepts, a [videoName] without path separator on the first
    frame of every group, at least one worker, a rasterizer that returns),
    the output directory is created first and the files written are, group
    by group and in the grouper's order, one file
    [<out_base>/<videoName>.json] per group, holding that group's frames in
    the order the grouper returned them, with nothing but masks and boxes
    changed. *)
Theorem segtrack_one_file_per_group frames out_base cfg n h img_shape groups :
  imageSize cfg = Some img_shape ->
  1 <= n ->
  rasterizer_returns ->
  out_base <> "" ->
  group_and_sort frames = Some groups ->
  Forall (fun g => exists f0 tl v,
            g = f0 :: tl /\ videoName f0 = Some v /\ has_sep v = false) groups ->
  let r := segtrack_to_rles frames out_base cfg n h in
  result r = inr tt /\
  (exists rest, events r = EvMakedirs out_base :: rest) /\
  Forall2
    (fun g e =>
       exists f0 tl v saved,
         g = f0 :: tl /\ videoName f0 = Some v /\
         e = EvSave (os_path_join out_base (v +:+ ".json")) saved /\
         os_path_join out_base (v +:+ ".json") =
           out_base +:+ dir_sep out_base +:+ v +:+ ".json" /\
         sf_without_masks <$> saved = sf_without_masks <$> (snapshot h <$> g))
    groups (List.filter is_save (events r)).
Proof.
  intros Hcfg Hn Hret Hbase Hgroups Hnamed. cbv zeta.
  rewrite segtrack_to_rles_run, Hgroups, Hcfg.
  destruct (segtrack_units_ok out_base img_shape groups)
    as (out_paths & Hunits & Hpaths).
  { eapply Forall_impl; [exact Hnamed|].
    intros g (f0 & tl & v & -> & Hv & _). simpl. rewrite Hv. eauto. }
  rewrite Hunits.
  assert (length out_paths = length groups) as Hlen
    by (symmetry; exact (Forall2_length _ _ _ Hpaths)).
  destruct (frames_to_rles_run n out_paths
              (replicate (length groups) img_shape) groups h Hn Hret)
    as (Hr & _ & Hsaves); [rewrite length_replicate; lia | lia|].
  cbv zeta. cbn [result events final].
  split; [exact Hr|]. split; [eauto|].
  cbn [List.filter is_save].
  pose proof (zip_units out_base img_shape _ _ Hpaths) as Hzip.
  revert Hzip Hsaves Hnamed.
  generalize (List.filter is_save
                (events (frames_to_rles n out_paths
                           (replicate (length groups) img_shape) groups h))).
  generalize (zip out_paths (zip (replicate (length groups) img_shape) groups)).
  clear. intros units evs Hzip. revert evs.
  induction Hzip as [|g u gs us [Hp Hu] _ IH]; intros evs Hsaves Hnamed;
    inversion Hsaves as [|u' e us' evs' (saved & -> & Hsaved) Hrest]; subst;
    constructor.
  - apply Forall_cons in Hnamed as [(f0 & tl & v & -> & Hv & Hsep) _].
    simpl in Hp. rewrite Hv in Hp. injection Hp as Hp.
    exists f0, tl, v, saved. rewrite Hp, Hu in *.
    repeat split; try reflexivity; try assumption.
    rewrite <- Hp. apply os_path_join_relative.
    apply startswith_sep_app; [now apply has_sep_startswith_sep | reflexivity].
  - apply IH; [exact Hrest|]. now apply Forall_cons in Hnamed as [_ ?].
Qed.

(** ** main *)

(** The configuration that the [if ... elif ... else] of [main] resolves
    to: [None] when the class rejects the embedded config. *)
Definition config_by_precedence (args : Args) (dataset : Dataset)
    : option BDD100KConfig :=
  match config args, ds_config dataset with
  | Some path, _ => Some (load_bdd100k_config path)
  | None, Some c => BDD100KConfig_init "config" c
  | None, None => Some (load_bdd100k_config (mode_name (mode args)))
  end.

(** The config loads that the resolution performs. *)
Definition config_loads (args : Args) (dataset : Dataset) : list Event :=
  match config args, ds_config dataset with
  | Some path, _ => [EvLoadConfig path]
  | None, Some _ => []
  | None, None => [EvLoadConfig (mode_name (mode args))]
  end.

Lemma resolve_config_run args dataset h :
  resolve_config args dataset h =
    MkRun (config_loads args dataset) h
          (match config_by_precedence args dataset with
           | Some bdd100k_config => inr bdd100k_config
           | None => inl ValidationError
           end).
Proof.
  unfold resolve_config, config_by_precedence, config_loads.
  destruct (config args), (ds_config dataset); try reflexivity.
  now destruct (BDD100KConfig_init _ _).
Qed.

Lemma config_loads_rejected args dataset :
  config_by_precedence args dataset = None -> config_loads args dataset = [].
Proof.
  unfold config_by_precedence, config_loads.
  now destruct (config args), (ds_config dataset).
Qed.

(** The frames handed to the conversion function and the store they live
    in: translated for [ins_seg] and [seg_track], as loaded otherwise. *)
Definition frames_to_convert (args : Args) (bdd100k_config : BDD100KConfig)
    : gmap loc Label * list Frame :=
  let ld := load (input args) (nproc args) in
  if bool_decide (mode args ∈ [ins_seg; seg_track])
  then bdd100k_to_scalabel (ds_frames ld.2) bdd100k_config ld.1
  else (ld.1, ds_frames ld.2).

Lemma mode_supported m :
  bool_decide (m ∈ [sem_seg; drivable; pan_seg; ins_seg; seg_track]) =
    match m with lane_mark => false | _ => true end.
Proof. destruct m; vm_compute; reflexivity. Qed.

Lemma mode_translated m :
  bool_decide (m ∈ [ins_seg; seg_track]) =
    match m with ins_seg | seg_track => true | _ => false end.
Proof. destruct m; vm_compute; reflexivity. Qed.

Lemma main_run args h bdd100k_config :
  mode args <> lane_mark ->
  config_by_precedence args (load (input args) (nproc args)).2 =
    Some bdd100k_config ->
  exists convert,
    convert_funcs (mode args) = Some convert /\
    main args h =
      let ld := load (input args) (nproc args) in
      let fr := frames_to_convert args bdd100k_config in
      let r := convert fr.2 (output args) (scalabel bdd100k_config) (nproc args)
                 fr.1 in
      MkRun (EvLoad (input args) (nproc args)
               :: config_loads args ld.2
               ++ (if bool_decide (mode args ∈ [ins_seg; seg_track])
                   then [EvTranslate (ds_frames ld.2)] else [])
               ++ events r)
            (final r) (result r).
Proof.
  intros Hmode Hcfg. unfold main, frames_to_convert.
  rewrite mode_supported, mode_translated.
  destruct (mode args) eqn:Em; try congruence;
    (eexists; split; [reflexivity|]);
    unfold bind, assert, do_load, do_bdd100k_to_scalabel, ret;
    cbn [result final events fst snd];
    rewrite !resolve_config_run, Hcfg; cbn [result final events convert_funcs app];
    rewrite ?app_nil_r, <- ?app_assoc; reflexivity.
Qed.

Lemma main_config_rejected args h :
  mode args <> lane_mark ->
  config_by_precedence args (load (input args) (nproc args)).2 = None ->
  main args h =
    MkRun [EvLoad (input args) (nproc args)] (load (input args) (nproc args)).1
          (inl ValidationError).
Proof.
  intros Hmode Hcfg. unfold main. rewrite mode_supported.
  destruct (mode args) eqn:Em; try congruence;
    unfold bind, assert, do_load, ret;
    cbn [result final events fst snd];
    rewrite !resolve_config_run, Hcfg, (config_loads_rejected _ _ Hcfg);
    reflexivity.
Qed.

Lemma main_lane_mark args h :
  mode args = lane_mark -> main args h = MkRun [] h (inl (AssertionError "")).
Proof. intros E. unfold main. rewrite mode_supported, E. reflexivity. Qed.


(** An event of the conversion proper. *)
Definition is_conversion_event (e : Event) : bool :=
  match e with
  | EvMakedirs _ | EvRasterize _ _ | EvSave _ _ => true
  | _ => false
  end.

Lemma seg_to_rles_events frames out cfg n h :
  Forall (fun e => is_conversion_event e = true)
         (events (seg_to_rles frames out cfg n h)).
Proof.
  unfold seg_to_rles. destruct (imageSize cfg); [|constructor].
  eapply Forall_impl; [apply frames_to_rle_events_Forall|].
  now intros [] [H|H].
Qed.

Lemma frames_to_rles_events_kinds n out_paths shapes frames_list h :
  Forall (fun e => is_rasterize e = true \/ is_save e = true)
         (events (frames_to_rles n out_paths shapes frames_list h)).
Proof.
  apply frames_to_rles_events_Forall. intros. apply frames_to_rle_events_Forall.
Qed.

Lemma frames_to_rles_events n out_paths shapes frames_list h :
  Forall (fun e => is_conversion_event e = true)
         (events (frames_to_rles n out_paths shapes frames_list h)).
Proof.
  eapply Forall_impl; [apply frames_to_rles_events_kinds|].
  now intros [] [H|H].
Qed.

(** What [segtrack_to_rles] does: nothing when the grouper rejects the
    frames; otherwise the directory is created first, and rasterizer calls
    and saves follow. *)
Lemma segtrack_to_rles_events_head frames out cfg n h :
  match group_and_sort frames with
  | None => events (segtrack_to_rles frames out cfg n h) = []
  | Some _ =>
      exists rest,
        events (segtrack_to_rles frames out cfg n h) = EvMakedirs out :: rest /\
        Forall (fun e => is_rasterize e = true \/ is_save e = true) rest
  end.
Proof.
  rewrite segtrack_to_rles_run.
  destruct (group_and_sort frames) as [groups|]; [|reflexivity].
  destruct (imageSize cfg) as [s|]; [|exists []; split; [reflexivity | constructor]].
  destruct (segtrack_units _ _ _) as [e|[paths shapes]];
    [exists []; split; [reflexivity | constructor]|].
  eexists. split; [reflexivity|]. apply frames_to_rles_events_kinds.
Qed.

Lemma segtrack_to_rles_events frames out cfg n h :
  Forall (fun e => is_conversion_event e = true)
         (events (segtrack_to_rles frames out cfg n h)).
Proof.
  pose proof (segtrack_to_rles_events_head frames out cfg n h) as H.
  destruct (group_and_sort frames); [|rewrite H; constructor].
  destruct H as (rest & -> & Hrest). constructor; [reflexivity|].
  eapply Forall_impl; [exact Hrest|]. now intros [] [H|H].
Qed.

Lemma convert_events m convert frames out cfg n h :
  convert_funcs m = Some convert ->
  Forall (fun e => is_conversion_event e = true)
         (events (convert frames out cfg n h)).
Proof.
  destruct m; simpl; intros Hc; try discriminate; injection Hc as <-;
    auto using seg_to_rles_events, segtrack_to_rles_events.
Qed.

Lemma config_loads_events args dataset :
  Forall (fun e => exists name_or_path, e = EvLoadConfig name_or_path)
         (config_loads args dataset).
Proof.
  unfold config_loads.
  destruct (config args), (ds_config dataset); repeat constructor; eauto.
Qed.

Lemma filter_none {X} (p : X -> bool) (l : list X) :
  Forall (fun x => p x = false) l -> List.filter p l = [].
Proof.
  induction 1 as [|x l Hx _ IH]; [reflexivity|]. cbn. now rewrite Hx.
Qed.

Lemma config_loads_filter (p : Event -> bool) args dataset :
  (forall name_or_path, p (EvLoadConfig name_or_path) = false) ->
  List.filter p (config_loads args dataset) = [].
Proof.
  intros Hp. apply filter_none.
  eapply Forall_impl; [apply config_loads_events|]. now intros e [q ->].
Qed.

(** C6, as the code has it.  The second branch of the resolution does not
    hand the embedded config on: it constructs [BDD100KConfig] with the
    keyword [config], and when the class rejects that keyword (its field is
    [scalabel]) [main] ends there with the validation error, right after
    loading the input: no config is loaded, nothing is translated,
    converted or written. *)
Theorem embedded_config_is_rejected args h c :
  mode args <> lane_mark ->
  config args = None ->
  ds_config (load (input args) (nproc args)).2 = Some c ->
  BDD100KConfig_init "config" c = None ->
  main args h =
    MkRun [EvLoad (input args) (nproc args)] (load (input args) (nproc args)).1
          (inl ValidationError).
Proof.
  intros Hmode Hnone Hemb Hinit. apply main_config_rejected; [exact Hmode|].
  unfold config_by_precedence. now rewrite Hnone, Hemb.
Qed.



(** * Further properties of the conversion *)

(** ** What the loop reads is never written *)

Lemma same_but_masks_sym h h' : same_but_masks h h' -> same_but_masks h' h.
Proof. intros H l. now rewrite H. Qed.

Lemma same_but_masks_score_of h h' l :
  same_but_masks h h' -> score_of h' l = score_of h l.
Proof.
  intros H. specialize (H l). unfold score_of.
  destruct (h' !! l) as [lb'|], (h !! l) as [lb|]; try discriminate H; [|reflexivity].
  assert (without_mask lb' = without_mask lb) as E
    by exact (Some_inj _ _ H).
  exact (f_equal score E).
Qed.

Lemma same_but_masks_poly2d_of h h' l :
  same_but_masks h h' -> poly2d_of h' l = poly2d_of h l.
Proof.
  intros H. specialize (H l). unfold poly2d_of.
  destruct (h' !! l) as [lb'|], (h !! l) as [lb|]; try discriminate H; [|reflexivity].
  assert (without_mask lb' = without_mask lb) as E
    by exact (Some_inj _ _ H).
  exact (f_equal poly2d E).
Qed.

Lemma same_but_masks_render_order h h' ls :
  same_but_masks h h' -> render_order h' ls = render_order h ls.
Proof.
  intros H. unfold render_order.
  assert (forall l, score_key h' l = score_key h l) as Hkey.
  { intros l. unfold score_key. now rewrite (same_but_masks_score_of h h' l H). }
  rewrite (py_sorted_ext _ _ ls Hkey).
  assert (forallb (fun l => bool_decide (is_Some (score_of h' l))) ls =
          forallb (fun l => bool_decide (is_Some (score_of h l))) ls) as ->;
    [|reflexivity].
  induction ls as [|l ls IH]; [reflexivity|].
  cbn [forallb]. now rewrite IH, (same_but_masks_score_of h h' l H).
Qed.

Lemma same_but_masks_poly2ds h h' (ls : list loc) :
  same_but_masks h h' -> omap (poly2d_of h') ls = omap (poly2d_of h) ls.
Proof.
  intros H. induction ls as [|l ls IH]; [reflexivity|].
  cbn [omap list_omap]. now rewrite IH, (same_but_masks_poly2d_of h h' l H).
Qed.

(** The polygon sets submitted for a frame. *)
Definition frame_poly2ds (h : gmap loc Label) (ls : list loc) : list (list Poly2D) :=
  omap (poly2d_of h) (render_order h ls).

Lemma same_but_masks_frame_poly2ds h h' ls :
  same_but_masks h h' -> frame_poly2ds h' ls = frame_poly2ds h ls.
Proof.
  intros H. unfold frame_poly2ds.
  now rewrite (same_but_masks_render_order h h' ls H), (same_but_masks_poly2ds h h' _ H).
Qed.

(** The (label, mask) pairs a frame's conversion writes. *)
Definition frame_pairs (shape : ImageSize) (h : gmap loc Label) (f : Frame) :
    list (loc * RLE) :=
  match labels f with
  | None => []
  | Some ls =>
      if bool_decide (length ls = 0%nat) then []
      else match frame_to_rles shape (frame_poly2ds h ls) with
           | None => []
           | Some rles => zip (render_order h ls) rles
           end
  end.

Lemma convert_frame_final shape f h :
  final (convert_frame shape f h) = assign_rles (frame_pairs shape h f) h.
Proof.
  unfold convert_frame, frame_pairs, frame_poly2ds.
  destruct (labels f) as [ls|]; [|reflexivity].
  case_bool_decide; [reflexivity|]. now destruct (frame_to_rles _ _).
Qed.

Lemma convert_frame_same shape f h h' :
  same_but_masks h h' ->
  events (convert_frame shape f h') = events (convert_frame shape f h) /\
  result (convert_frame shape f h') = result (convert_frame shape f h) /\
  frame_pairs shape h' f = frame_pairs shape h f.
Proof.
  intros H. unfold convert_frame, frame_pairs, frame_poly2ds.
  destruct (labels f) as [ls|]; [|now repeat split].
  case_bool_decide; [now repeat split|].
  rewrite (same_but_masks_render_order h h' ls H),
          (same_but_masks_poly2ds h h' _ H).
  now destruct (frame_to_rles _ _).
Qed.

Lemma assign_rles_app ps qs h :
  assign_rles (ps ++ qs) h = assign_rles qs (assign_rles ps h).
Proof.
  revert h. induction ps as [|[l r] ps IH]; intros h; [reflexivity|]. apply IH.
Qed.

(** The loop on two stores that differ in masks only: same calls, same
    outcome, same writes. *)
Lemma for_each_convert_same shape frames h h' :
  same_but_masks h h' ->
  events (for_each (convert_frame shape) frames h') =
    events (for_each (convert_frame shape) frames h) /\
  result (for_each (convert_frame shape) frames h') =
    result (for_each (convert_frame shape) frames h) /\
  exists ps,
    final (for_each (convert_frame shape) frames h) = assign_rles ps h /\
    final (for_each (convert_frame shape) frames h') = assign_rles ps h'.
Proof.
  revert h h'. induction frames as [|f fs IH]; intros h h' H.
  - split; [reflexivity|]. split; [reflexivity|]. now exists [].
  - destruct (convert_frame_same shape f h h' H) as (He & Hr & Hp).
    pose proof (convert_frame_final shape f h) as Hf.
    pose proof (convert_frame_final shape f h') as Hf'. rewrite Hp in Hf'.
    assert (same_but_masks (final (convert_frame shape f h))
                           (final (convert_frame shape f h'))) as Hsame.
    { eapply same_but_masks_trans;
        [apply same_but_masks_sym, convert_frame_same_but_masks|].
      eapply same_but_masks_trans; [exact H|]. apply convert_frame_same_but_masks. }
    destruct (IH _ _ Hsame) as (IHe & IHr & ps & IHf & IHf').
    cbn [for_each]. unfold bind. rewrite Hr.
    destruct (result (convert_frame shape f h)) as [e|[]]; cbn [events result final].
    + split; [exact He|]. split; [reflexivity|].
      exists (frame_pairs shape h f). now split.
    + rewrite He, IHe. split; [reflexivity|]. split; [exact IHr|].
      exists (frame_pairs shape h f ++ ps).
      rewrite !assign_rles_app, <- Hf, <- Hf'. now split.
Qed.

(** ** Writing the same masks twice *)

(** The mask the pairs write last through a reference. *)
Fixpoint last_rle (pairs : list (loc * RLE)) (l : loc) : option RLE :=
  match pairs with
  | [] => None
  | (l', r) :: ps =>
      match last_rle ps l with
      | Some r' => Some r'
      | None => if decide (l = l') then Some r else None
      end
  end.

Lemma assign_rles_lookup_last pairs h l :
  assign_rles pairs h !! l =
    match last_rle pairs l with
    | Some r => set_rle r <$> (h !! l)
    | None => h !! l
    end.
Proof.
  revert h. induction pairs as [|[l' r'] ps IH]; intros h; [reflexivity|].
  cbn [assign_rles last_rle]. rewrite IH, lookup_alter.
  destruct (last_rle ps l) as [r|]; destruct (decide (l' = l)) as [->|Hne].
  - now destruct (h !! l).
  - reflexivity.
  - now rewrite decide_True by reflexivity.
  - now rewrite decide_False by congruence.
Qed.

Lemma assign_rles_idempotent pairs h :
  assign_rles pairs (assign_rles pairs h) = assign_rles pairs h.
Proof.
  apply map_eq. intros l. rewrite !assign_rles_lookup_last.
  destruct (last_rle pairs l) as [r|]; [|reflexivity]. now destruct (h !! l).
Qed.


(** ** frames_to_rle, further *)

(** X1.  Converting a list of frames a second time changes nothing: from
    the store the first conversion leaves, [frames_to_rle] makes the same
    rasterizer calls, ends the same way, leaves every label as it is and
    saves the same file. *)
Theorem frames_to_rle_idempotent out_path shape frames h :
  let r := frames_to_rle out_path shape frames h in
  frames_to_rle out_path shape frames (final r) = r.
Proof.
  cbv zeta. set (loop := for_each (convert_frame shape) frames h).
  assert (final (frames_to_rle out_path shape frames h) = final loop) as Hfinal.
  { rewrite frames_to_rle_run. cbv zeta. fold loop.
    now destruct (result loop) as [e|[]]. }
  rewrite Hfinal.
  assert (same_but_masks h (final loop)) as Hsame
    by apply for_each_same_but_masks, convert_frame_same_but_masks.
  destruct (for_each_convert_same shape frames h (final loop) Hsame)
    as (He & Hr & ps & Hf & Hf').
  fold loop in He, Hr, Hf.
  assert (final (for_each (convert_frame shape) frames (final loop)) = final loop)
    as Hfix.
  { rewrite Hf'. rewrite Hf at 1 2. apply assign_rles_idempotent. }
  rewrite !frames_to_rle_run. cbv zeta. fold loop.
  rewrite Hr, He, Hfix. reflexivity.
Qed.

(** A frame with a non-empty label list. *)
Definition labelled (f : Frame) : bool :=
  match labels f with
  | Some (_ :: _) => true
  | _ => false
  end.

Lemma convert_frame_labelled_events shape f h :
  events (convert_frame shape f h) =
    if labelled f
    then [EvRasterize shape (frame_poly2ds h (default [] (labels f)))]
    else [].
Proof.
  unfold convert_frame, labelled, frame_poly2ds.
  destruct (labels f) as [[|l ls]|]; try reflexivity.
  rewrite bool_decide_eq_false_2 by discriminate.
  now destruct (frame_to_rles _ _).
Qed.

Lemma for_each_convert_events shape frames h h' :
  rasterizer_returns ->
  same_but_masks h h' ->
  events (for_each (convert_frame shape) frames h') =
    (fun f => EvRasterize shape (frame_poly2ds h (default [] (labels f))))
      <$> List.filter labelled frames.
Proof.
  intros Hret. revert h'. induction frames as [|f fs IH]; intros h' H; [reflexivity|].
  cbn [for_each]. rewrite (bind_ok _ _ _ tt) by now apply convert_frame_returns.
  cbn [events]. rewrite IH.
  2:{ eapply same_but_masks_trans; [exact H | apply convert_frame_same_but_masks]. }
  rewrite convert_frame_labelled_events.
  rewrite (same_but_masks_frame_poly2ds h h' _ H).
  cbn [List.filter]. now destruct (labelled f).
Qed.

(** X2.  With a rasterizer that returns, [frames_to_rle] calls it once for
    every frame that has labels and never for the others, in frame order,
    each time with the image size given.  What is submitted for a frame is
    fixed by the scores and shapes at the start: converting the earlier
    frames has no influence on it. *)
Theorem one_rasterizer_call_per_labelled_frame out_path shape frames h :
  rasterizer_returns ->
  List.filter is_rasterize (events (frames_to_rle out_path shape frames h)) =
    (fun f => EvRasterize shape (frame_poly2ds h (default [] (labels f))))
      <$> List.filter labelled frames.
Proof.
  intros Hret. rewrite frames_to_rle_run. cbv zeta.
  rewrite for_each_returns by (intros; now apply convert_frame_returns).
  cbn [events]. rewrite List.filter_app. cbn [List.filter is_rasterize].
  rewrite app_nil_r.
  rewrite (for_each_convert_events shape frames h h Hret (same_but_masks_refl h)).
  induction (List.filter labelled frames) as [|f fs IH]; [reflexivity|].
  cbn. now rewrite IH.
Qed.

Lemma convert_frame_result shape f h :
  result (convert_frame shape f h) = inr tt \/
  result (convert_frame shape f h) = inl RasterError.
Proof.
  unfold convert_frame. destruct (labels f) as [ls|]; [|now left].
  case_bool_decide; [now left|]. destruct (frame_to_rles _ _); [now left | now right].
Qed.

Lemma for_each_convert_fails shape pre f post post' h h' ls :
  labels f = Some ls -> ls <> [] ->
  frame_to_rles shape (frame_poly2ds h ls) = None ->
  same_but_masks h h' ->
  result (for_each (convert_frame shape) (pre ++ f :: post) h') = inl RasterError /\
  for_each (convert_frame shape) (pre ++ f :: post) h' =
    for_each (convert_frame shape) (pre ++ f :: post') h'.
Proof.
  intros E Hne Hnone. revert h'. induction pre as [|g pre IH]; intros h' H.
  - cbn [app for_each].
    assert (convert_frame shape f h' =
            MkRun [EvRasterize shape (frame_poly2ds h ls)] h' (inl RasterError)) as Hf.
    { unfold convert_frame. rewrite E.
      rewrite bool_decide_eq_false_2 by (destruct ls; [congruence | discriminate]).
      fold (frame_poly2ds h' ls).
      now rewrite (same_but_masks_frame_poly2ds h h' ls H), Hnone. }
    unfold bind. rewrite Hf. cbn. now split.
  - cbn [app for_each]. unfold bind.
    destruct (convert_frame_result shape g h') as [Hr|Hr]; rewrite Hr.
    + cbn [result events final].
      assert (same_but_masks h (final (convert_frame shape g h'))) as H'.
      { eapply same_but_masks_trans; [exact H | apply convert_frame_same_but_masks]. }
      destruct (IH _ H') as [IHr IHeq]. split; [exact IHr|]. now rewrite IHeq.
    + cbn. now split.
Qed.

(** X3.  When the rasterizer raises on a frame, [frames_to_rle] raises too
    and writes no file; the frames after the failing one do not matter:
    they are never looked at. *)
Theorem rasterizer_error_stops_the_unit out_path shape pre f post h ls :
  labels f = Some ls -> ls <> [] ->
  frame_to_rles shape (frame_poly2ds h ls) = None ->
  let r := frames_to_rle out_path shape (pre ++ f :: post) h in
  result r = inl RasterError /\
  List.filter is_save (events r) = [] /\
  forall post', frames_to_rle out_path shape (pre ++ f :: post') h = r.
Proof.
  intros E Hne Hnone. cbv zeta.
  destruct (for_each_convert_fails shape pre f post post h h ls E Hne Hnone
              (same_but_masks_refl h)) as [Hr _].
  split; [|split].
  - rewrite frames_to_rle_run. cbv zeta. now rewrite Hr.
  - rewrite frames_to_rle_saves. cbv zeta.
    rewrite frames_to_rle_run. cbv zeta. now rewrite Hr.
  - intros post'.
    destruct (for_each_convert_fails shape pre f post' post h h ls E Hne Hnone
                (same_but_masks_refl h)) as [Hr' Heq].
    rewrite !frames_to_rle_run. cbv zeta. rewrite Heq, Hr. reflexivity.
Qed.

Lemma convert_frame_lookup_outside shape f h l :
  (forall ls, labels f = Some ls -> l ∉ ls) ->
  final (convert_frame shape f h) !! l = h !! l.
Proof.
  intros Hout. rewrite convert_frame_final. apply assign_rles_lookup_notin.
  unfold frame_pairs. destruct (labels f) as [ls|] eqn:E; [|apply not_elem_of_nil].
  case_bool_decide; [apply not_elem_of_nil|].
  destruct (frame_to_rles _ _) as [rles|]; [|apply not_elem_of_nil].
  intros Hin. apply zip_fst_subseteq in Hin.
  rewrite render_order_Permutation in Hin. now apply (Hout ls).
Qed.

(** X4.  [frames_to_rle] writes only through the references its frames
    hold: a label that is in no frame's label list is left exactly as it
    was, masks and boxes included. *)
Theorem labels_outside_frames_untouched out_path shape frames h l :
  (forall f ls, f ∈ frames -> labels f = Some ls -> l ∉ ls) ->
  final (frames_to_rle out_path shape frames h) !! l = h !! l.
Proof.
  intros Hout.
  assert (final (frames_to_rle out_path shape frames h) =
          final (for_each (convert_frame shape) frames h)) as ->.
  { rewrite frames_to_rle_run. cbv zeta.
    now destruct (result (for_each (convert_frame shape) frames h)) as [e|[]]. }
  revert h. induction frames as [|f fs IH]; intros h; [reflexivity|].
  assert (final (convert_frame shape f h) !! l = h !! l) as Hf.
  { apply convert_frame_lookup_outside. intros ls. apply Hout. now left. }
  cbn [for_each]. unfold bind.
  destruct (result (convert_frame shape f h)) as [e|[]]; cbn [final]; [exact Hf|].
  rewrite IH; [exact Hf|]. intros f' ls Hf'. apply Hout. now right.
Qed.

(** X5.  Masks are zipped onto labels, so no more labels are written than
    masks came back: a label whose position in the rendering order is at or
    beyond the number of masks keeps what it had. *)
Theorem labels_beyond_masks_untouched shape f h ls rles i l :
  labels f = Some ls -> NoDup ls ->
  frame_to_rles shape (frame_poly2ds h ls) = Some rles ->
  render_order h ls !! i = Some l ->
  (length rles <= i)%nat ->
  final (convert_frame shape f h) !! l = h !! l.
Proof.
  intros E Hnd Hr Hl Hlen. rewrite convert_frame_final.
  apply assign_rles_lookup_notin. unfold frame_pairs. rewrite E.
  case_bool_decide; [apply not_elem_of_nil|]. rewrite Hr.
  intros Hin. apply list_elem_of_fmap in Hin as ([l' r] & Heq & Hin).
  cbn in Heq. subst l'.
  apply list_elem_of_lookup in Hin as [j Hj].
  apply lookup_zip_Some in Hj as [Hj Hrj].
  apply lookup_lt_Some in Hrj.
  assert (NoDup (render_order h ls)) as Hnd'
    by now rewrite render_order_Permutation.
  pose proof (NoDup_lookup _ _ _ _ Hnd' Hj Hl). lia.
Qed.

(** X6.  Ties are not reordered: when no score is a NaN, among the labels
    of one score the rendering order is the frame's own order, so of two
    labels with equal scores the later one is rendered later. *)
Theorem equal_scores_keep_frame_order h ls k :
  Forall (fun l => is_nan (score_key h l) = false) ls ->
  List.filter (fun l => (score_key h l =? k)%float) (render_order h ls) =
  List.filter (fun l => (score_key h l =? k)%float) ls.
Proof.
  intros Hnum. unfold render_order. destruct (forallb _ ls); [|reflexivity].
  rewrite py_sorted_ordered by exact Hnum. apply sorted_stable.
Qed.

Lemma omap_all_None {X Y} (g : X -> option Y) (l : list X) :
  (forall x, x ∈ l -> g x = None) -> omap g l = [].
Proof.
  induction l as [|x l IH]; intros H; [reflexivity|].
  cbn [omap list_omap]. rewrite (H x) by now left.
  apply IH. intros y Hy. apply H. now right.
Qed.

(** X7.  A frame that has labels but no polygon shape among them is not
    skipped: the rasterizer is still called, with an empty list, and when
    it answers with no mask no label is written. *)
Theorem frame_without_shapes_still_rasterized shape f h ls :
  labels f = Some ls -> ls <> [] ->
  (forall l, l ∈ ls -> poly2d_of h l = None) ->
  events (convert_frame shape f h) = [EvRasterize shape []] /\
  (frame_to_rles shape [] = Some [] ->
   convert_frame shape f h = MkRun [EvRasterize shape []] h (inr tt)).
Proof.
  intros E Hne Hnone.
  assert (omap (poly2d_of h) (render_order h ls) = []) as Hpolys.
  { apply omap_all_None. intros l Hl. apply Hnone.
    now rewrite render_order_Permutation in Hl. }
  unfold convert_frame. rewrite E.
  rewrite bool_decide_eq_false_2 by (destruct ls; [congruence | discriminate]).
  rewrite Hpolys. split.
  - now destruct (frame_to_rles shape []).
  - intros ->. destruct (render_order h ls); reflexivity.
Qed.



(** ** segtrack_to_rles and frames_to_rles, further *)

Lemma string_length_append (x s : string) :
  String.length (x +:+ s) = (String.length x + String.length s)%nat.
Proof.
  induction x as [|c x IH]; [reflexivity|].
  change (S (String.length (x +:+ s)) = S (String.length x + String.length s)).
  now rewrite IH.
Qed.

Lemma string_append_inj_l (a x y : string) : a +:+ x = a +:+ y -> x = y.
Proof.
  induction a as [|c a IH]; cbn; intros H; [exact H|].
  injection H as H. now apply IH.
Qed.

Lemma string_append_inj_r (x y s : string) : x +:+ s = y +:+ s -> x = y.
Proof.
  revert y. induction x as [|c x IH]; intros [|d y] H.
  - reflexivity.
  - apply (f_equal String.length) in H.
    rewrite !string_length_append in H. cbn [String.length] in H. lia.
  - apply (f_equal String.length) in H.
    rewrite !string_length_append in H. cbn [String.length] in H. lia.
  - change (String c (x +:+ s) = String d (y +:+ s)) in H.
    injection H as -> H. f_equal. now apply IH.
Qed.

Lemma os_path_join_json_inj (a v1 v2 : string) :
  startswith_sep v1 = false -> startswith_sep v2 = false ->
  os_path_join a (v1 +:+ ".json") = os_path_join a (v2 +:+ ".json") -> v1 = v2.
Proof.
  intros H1 H2.
  rewrite !os_path_join_relative by now apply startswith_sep_app.
  intros H. do 2 apply string_append_inj_l in H.
  now apply string_append_inj_r in H.
Qed.

(** The sequence identifiers the output paths are made of: the [videoName]
    of the first frame of each group. *)
Definition group_ids (frames_list : list (list Frame)) : list string :=
  omap (fun g => head g ≫= videoName) frames_list.

Lemma segtrack_units_paths out_base img_shape frames_list out_paths shapes :
  segtrack_units out_base img_shape frames_list = inr (out_paths, shapes) ->
  out_paths =
    (fun v => os_path_join out_base (v +:+ ".json")) <$> group_ids frames_list /\
  length out_paths = length frames_list /\
  shapes = replicate (length frames_list) img_shape.
Proof.
  revert out_paths shapes.
  induction frames_list as [|g gs IH]; intros out_paths shapes H; cbn in H.
  - injection H as <- <-. now repeat split.
  - destruct g as [|f0 tl]; [discriminate|].
    destruct (videoName f0) as [v|] eqn:Ev; [|discriminate].
    destruct (segtrack_units out_base img_shape gs) as [e|[ps ss]]; [discriminate|].
    injection H as <- <-. destruct (IH ps ss eq_refl) as (-> & Hlen & ->).
    assert (group_ids ((f0 :: tl) :: gs) = v :: group_ids gs) as ->.
    { unfold group_ids. cbn. now rewrite Ev. }
    rewrite fmap_cons. cbn [length replicate].
    split; [reflexivity|]. split; [now rewrite Hlen | reflexivity].
Qed.

(** The path a save event writes. *)
Definition save_path (e : Event) : option string :=
  match e with
  | EvSave p _ => Some p
  | _ => None
  end.

Lemma omap_save_path_rasterize evs :
  Forall (fun e => is_rasterize e = true) evs -> omap save_path evs = [].
Proof.
  induction 1 as [|e evs He _ IH]; [reflexivity|].
  cbn [omap list_omap]. now destruct e.
Qed.

Lemma frames_to_rle_save_paths out_path shape frames h :
  omap save_path (events (frames_to_rle out_path shape frames h)) =
    match result (frames_to_rle out_path shape frames h) with
    | inl _ => []
    | inr _ => [out_path]
    end.
Proof.
  rewrite frames_to_rle_run. cbv zeta.
  assert (omap save_path (events (for_each (convert_frame shape) frames h)) = [])
    as Hloop.
  { apply omap_save_path_rasterize, for_each_events_Forall.
    intros f h0. apply convert_frame_events_rasterize. }
  destruct (result (for_each (convert_frame shape) frames h)) as [e|[]];
    cbn [events result]; [exact Hloop|].
  now rewrite omap_app, Hloop.
Qed.

Lemma chunk_save_paths (chunk : list (string * (ImageSize * list Frame))) h :
  sublist
    (omap save_path
       (events (for_each
                  (fun u : string * (ImageSize * list Frame) =>
                     frames_to_rle u.1 u.2.1 u.2.2)
                  chunk h)))
    chunk.*1.
Proof.
  revert h. induction chunk as [|u us IH]; intros h; [constructor|].
  cbn [for_each]. unfold bind.
  pose proof (frames_to_rle_save_paths u.1 u.2.1 u.2.2 h) as Hu.
  destruct (result (frames_to_rle u.1 u.2.1 u.2.2 h)) as [e|[]]; cbn [events].
  - rewrite Hu. apply sublist_nil_l.
  - rewrite omap_app, Hu. cbn. constructor. apply IH.
Qed.

Lemma run_chunks_save_paths batches h :
  sublist (omap save_path (events (run_chunks batches h))) (concat batches).*1.
Proof.
  induction batches as [|c bs IH]; [constructor|].
  cbn [run_chunks events concat]. rewrite omap_app, fmap_app.
  apply sublist_app; [apply chunk_save_paths | exact IH].
Qed.

Lemma zip_fst_sublist {X Y} (l : list X) (k : list Y) : sublist (zip l k).*1 l.
Proof.
  revert k. induction l as [|x l IH]; intros [|y k]; cbn;
    try apply sublist_nil_l. constructor. apply IH.
Qed.

Lemma frames_to_rles_save_paths n out_paths shapes frames_list h :
  sublist (omap save_path (events (frames_to_rles n out_paths shapes frames_list h)))
          out_paths.
Proof.
  unfold frames_to_rles. destruct (n <? 1)%Z; [apply sublist_nil_l|]. cbv zeta.
  set (units := zip out_paths (zip shapes frames_list)).
  set (batches := chunks (length units) _ units).
  assert (sublist (omap save_path (events (run_chunks batches h))) out_paths) as H.
  { etransitivity; [apply run_chunks_save_paths|].
    etransitivity; [apply fmap_sublist, chunks_concat_sublist|].
    apply zip_fst_sublist. }
  now destruct (_ <? _)%nat.
Qed.

(** X9.  In [seg_track] mode no two units write to the same file name:
    when the groups the grouper returns have distinct sequence identifiers
    without a path separator, then whatever the outcome of the run the
    paths saved to are pairwise different and each of them is
    [<out_base>/<videoName>.json], a name directly in the output
    directory. *)
Theorem segtrack_files_distinct frames out_base cfg n h groups :
  group_and_sort frames = Some groups ->
  Forall (fun v => has_sep v = false) (group_ids groups) ->
  NoDup (group_ids groups) ->
  let saved := omap save_path (events (segtrack_to_rles frames out_base cfg n h)) in
  NoDup saved /\
  Forall (fun p => exists v,
            v ∈ group_ids groups /\
            p = out_base +:+ dir_sep out_base +:+ v +:+ ".json") saved.
Proof.
  intros Hgroups Hrel Hnd. cbv zeta. rewrite segtrack_to_rles_run, Hgroups.
  destruct (imageSize cfg) as [img_shape|]; [|split; constructor].
  destruct (segtrack_units out_base img_shape groups)
    as [e|[out_paths shapes]] eqn:Eu; [split; constructor|].
  cbv zeta. cbn [events omap list_omap save_path].
  pose proof (frames_to_rles_save_paths n out_paths shapes groups h) as Hsub.
  destruct (segtrack_units_paths _ _ _ _ _ Eu) as (-> & _ & _).
  rewrite Forall_forall in Hrel. split.
  - eapply sublist_NoDup; [|exact Hsub].
    apply NoDup_fmap_2_strong; [|exact Hnd].
    intros v1 v2 H1 H2.
    apply os_path_join_json_inj; apply has_sep_startswith_sep; auto.
  - apply Forall_forall. intros p Hp.
    apply (fun H => elem_of_sublist _ _ _ H Hsub) in Hp.
    apply list_elem_of_fmap in Hp as (v & -> & Hv). exists v. split; [exact Hv|].
    apply os_path_join_relative, startswith_sep_app; [|reflexivity].
    apply has_sep_startswith_sep; auto.
Qed.

(** X11.  [segtrack_to_rles] never changes the caller's labels: the units
    run in pool workers on copies, so whatever the outcome the labels the
    caller holds have the masks and boxes they had before (unlike
    [seg_to_rles], which converts the caller's labels in place). *)
Theorem segtrack_to_rles_leaves_labels frames out_base cfg n h :
  final (segtrack_to_rles frames out_base cfg n h) = h.
Proof.
  rewrite segtrack_to_rles_run.
  destruct (group_and_sort frames) as [groups|]; [|reflexivity].
  destruct (imageSize cfg) as [img_shape|]; [|reflexivity].
  destruct (segtrack_units _ _ _) as [e|[out_paths shapes]]; [reflexivity|].
  apply frames_to_rles_final.
Qed.

(** X12.  [segtrack_to_rles] needs at least one worker: with a worker
    count below one and everything else in order, the directory is created
    and the paths are prepared, then creating the pool raises [ValueError]
    and no unit runs. *)
Theorem segtrack_needs_a_worker frames out_base cfg n h img_shape groups :
  imageSize cfg = Some img_shape ->
  group_and_sort frames = Some groups ->
  Forall (fun g => is_Some (video_path out_base g)) groups ->
  n < 1 ->
  segtrack_to_rles frames out_base cfg n h =
    MkRun [EvMakedirs out_base] h
          (inl (ValueError "Number of processes must be at least 1")).
Proof.
  intros Hcfg Hgroups Hnamed Hn. rewrite segtrack_to_rles_run, Hgroups, Hcfg.
  destruct (segtrack_units_ok out_base img_shape _ Hnamed) as (out_paths & -> & _).
  cbv zeta. unfold frames_to_rles.
  now rewrite (proj2 (Z.ltb_lt n 1) Hn).
Qed.





Lemma pool_chunksize_small (n : Z) (len : nat) :
  1 <= n -> (1 <= len <= Z.to_nat (n * 4))%nat -> pool_chunksize n len = 1%nat.
Proof.
  intros Hn Hl. unfold pool_chunksize.
  destruct (Nat.eq_dec len (Z.to_nat (n * 4))) as [->|Hne].
  - rewrite Nat.div_same, Nat.Div0.mod_same by lia. reflexivity.
  - rewrite Nat.div_small, Nat.mod_small by lia.
    destruct (Nat.eqb_spec len 0); lia.
Qed.

Lemma pool_expected_one (len : nat) : pool_expected len 1 = len.
Proof.
  unfold pool_expected. cbn [Nat.eqb].
  rewrite Nat.div_1_r, Nat.mod_1_r. cbn. lia.
Qed.

(** X18.  The pool is told to expect one unit per output path, but is fed
    the zip of the three lists: with at least one worker, at most four
    paths per worker, and shapes or frame lists that run out before the
    paths do, the units that exist are run and [frames_to_rles] then waits
    for the missing ones forever: it neither returns nor raises. *)
Theorem frames_to_rles_waits_for_missing_units n out_paths shapes frames_list h :
  1 <= n ->
  (length out_paths <= Z.to_nat (n * 4))%nat ->
  (length shapes `min` length frames_list < length out_paths)%nat ->
  result (frames_to_rles n out_paths shapes frames_list h) = inl NeverReturns.
Proof.
  intros Hn Hsmall Hshort. unfold frames_to_rles.
  destruct (n <? 1)%Z eqn:E; [apply Z.ltb_lt in E; lia|]. cbv zeta.
  rewrite pool_chunksize_small by lia.
  rewrite chunks_length, !pool_expected_one by lia.
  rewrite !length_zip_with.
  replace (_ <? _)%nat with true; [reflexivity|].
  symmetry. apply Nat.ltb_lt. lia.
Qed.


(** ** main, further *)

Lemma seg_to_rles_events_kinds frames out cfg n h :
  Forall (fun e => is_rasterize e = true \/ is_save e = true)
         (events (seg_to_rles frames out cfg n h)).
Proof.
  unfold seg_to_rles. destruct (imageSize cfg); [|constructor].
  apply frames_to_rle_events_Forall.
Qed.

(** X14.  [main] treats [--output] as a directory only in [seg_track]
    mode: a directory that is created is the output path itself and the
    mode is [seg_track]; in every other mode no directory is ever created.
    In [seg_track] mode the directory is created once the configuration is
    resolved and the grouper has accepted the translated frames. *)
Theorem output_is_a_directory_only_for_seg_track args h :
  (forall p, EvMakedirs p ∈ events (main args h) ->
             mode args = seg_track /\ p = output args) /\
  (forall bdd100k_config groups,
     mode args = seg_track ->
     config_by_precedence args (load (input args) (nproc args)).2 =
       Some bdd100k_config ->
     group_and_sort
       (bdd100k_to_scalabel (ds_frames (load (input args) (nproc args)).2)
          bdd100k_config (load (input args) (nproc args)).1).2 = Some groups ->
     EvMakedirs (output args) ∈ events (main args h)).
Proof.
  split.
  - intros p.
    destruct (decide (mode args = lane_mark)) as [El|Hmode].
    { rewrite (main_lane_mark args h El). cbn.
      intros H. now apply elem_of_nil in H. }
    destruct (config_by_precedence args (load (input args) (nproc args)).2)
      as [bdd100k_config|] eqn:Hcfg.
    2:{ rewrite (main_config_rejected args h Hmode Hcfg). cbn [events].
        intros H. apply list_elem_of_singleton in H. discriminate. }
    destruct (main_run args h bdd100k_config Hmode Hcfg) as (convert & Hc & ->).
    cbv zeta. cbn [events].
    pose proof (config_loads_events args (load (input args) (nproc args)).2) as Hres.
    rewrite Forall_forall in Hres.
    rewrite elem_of_cons, !elem_of_app.
    set (cfg := scalabel _). set (fr := frames_to_convert args bdd100k_config).
    intros [Hd|[Hin|[Hin|Hin]]]; [discriminate| | |].
    + destruct (Hres _ Hin). discriminate.
    + destruct (bool_decide _); [|now apply elem_of_nil in Hin].
      apply list_elem_of_singleton in Hin. discriminate.
    + destruct (mode args) eqn:Em; try congruence; injection Hc as <-.
      1,2,3,4:
        (pose proof (seg_to_rles_events_kinds fr.2 (output args) cfg (nproc args) fr.1)
           as Hk;
         rewrite Forall_forall in Hk; destruct (Hk _ Hin); discriminate).
      pose proof (segtrack_to_rles_events_head fr.2 (output args) cfg (nproc args) fr.1)
        as Hhead.
      destruct (group_and_sort fr.2);
        [|rewrite Hhead in Hin; now apply elem_of_nil in Hin].
      destruct Hhead as (rest & Hev & Hrest). rewrite Hev in Hin.
      apply elem_of_cons in Hin as [Heq|Hin]; [injection Heq as ->; now split|].
      rewrite Forall_forall in Hrest. destruct (Hrest _ Hin); discriminate.
  - intros bdd100k_config groups Em Hcfg Hgroups.
    assert (mode args <> lane_mark) as Hmode by congruence.
    destruct (main_run args h bdd100k_config Hmode Hcfg) as (convert & Hc & ->).
    cbv zeta. cbn [events].
    rewrite Em in Hc. injection Hc as <-.
    unfold frames_to_convert. rewrite mode_translated, Em.
    pose proof (segtrack_to_rles_events_head
                  (bdd100k_to_scalabel
                     (ds_frames (load (input args) (nproc args)).2)
                     bdd100k_config (load (input args) (nproc args)).1).2
                  (output args) (scalabel bdd100k_config) (nproc args)
                  (bdd100k_to_scalabel
                     (ds_frames (load (input args) (nproc args)).2)
                     bdd100k_config (load (input args) (nproc args)).1).1)
      as Hhead.
    rewrite Hgroups in Hhead. destruct Hhead as (rest & -> & _).
    rewrite elem_of_cons, !elem_of_app. right; right; right. now left.
Qed.

(** X15.  An explicit [--config] is not rescued by the collection's own
    config: when the file named by [--config] has no [imageSize], [main]
    fails on the assertion, rasterizes nothing and saves nothing, whatever
    configuration the loaded collection embeds. *)
Theorem explicit_config_without_imageSize_fails args h path :
  mode args <> lane_mark ->
  config args = Some path ->
  imageSize (scalabel (load_bdd100k_config path)) = None ->
  (exists msg, result (main args h) = inl (AssertionError msg)) /\
  List.filter is_save (events (main args h)) = [] /\
  List.filter is_rasterize (events (main args h)) = [].
Proof.
  intros Hmode Hpath Hsize.
  assert (config_by_precedence args (load (input args) (nproc args)).2 =
          Some (load_bdd100k_config path)) as Hcfg.
  { unfold config_by_precedence. now rewrite Hpath. }
  destruct (main_run args h _ Hmode Hcfg) as (convert & Hc & ->). cbv zeta.
  cbn [events final result].
  unfold config_loads. rewrite Hpath.
  set (fr := frames_to_convert args (load_bdd100k_config path)).
  assert ((exists msg,
             result (convert fr.2 (output args)
                       (scalabel (load_bdd100k_config path)) (nproc args) fr.1)
             = inl (AssertionError msg)) /\
          (events (convert fr.2 (output args)
                     (scalabel (load_bdd100k_config path)) (nproc args) fr.1) = [] \/
           events (convert fr.2 (output args)
                     (scalabel (load_bdd100k_config path)) (nproc args) fr.1)
           = [EvMakedirs (output args)])) as [Hres Hev].
  { destruct (mode args); try congruence; injection Hc as <-;
      rewrite ?segtrack_to_rles_run; unfold seg_to_rles; rewrite Hsize;
      try destruct (group_and_sort fr.2); cbn; eauto. }
  split; [exact Hres|].
  destruct (bool_decide (mode args ∈ [ins_seg; seg_track]));
    destruct Hev as [-> | ->]; now split.
Qed.

(** An event that loads the annotations. *)
Definition is_load (e : Event) : bool :=
  match e with EvLoad _ _ => true | _ => false end.

(** X16.  [main] checks the mode before it touches anything: in
    [lane_mark] mode, which the parser accepts, it fails on the assertion
    without loading the input; in every other mode it loads the input
    exactly once, with the given path and worker count, before anything
    else happens. *)
Theorem main_loads_input_once args h :
  (mode args = lane_mark -> main args h = MkRun [] h (inl (AssertionError ""))) /\
  (mode args <> lane_mark ->
   exists rest,
     events (main args h) = EvLoad (input args) (nproc args) :: rest /\
     List.filter is_load rest = []).
Proof.
  split; [apply main_lane_mark|]. intros Hmode.
  destruct (config_by_precedence args (load (input args) (nproc args)).2)
    as [bdd100k_config|] eqn:Hcfg.
  2:{ rewrite (main_config_rejected args h Hmode Hcfg). now exists []. }
  destruct (main_run args h bdd100k_config Hmode Hcfg) as (convert & Hc & ->).
  cbv zeta. cbn [events].
  eexists. split; [reflexivity|].
  rewrite !List.filter_app.
  rewrite config_loads_filter by reflexivity.
  rewrite (filter_none is_load (events (convert _ _ _ _ _))).
  2:{ eapply Forall_impl; [apply (convert_events _ _ _ _ _ _ _ Hc)|].
      now intros []. }
  now destruct (bool_decide _).
Qed.

(** X17.  In [ins_seg] mode, once the configuration is resolved, it is the
    translated frames that are converted: [main] hands the frames and the
    labels that [bdd100k_to_scalabel] returns for the loaded frames to one
    [seg_to_rles] call on the output path, and the file written on success
    holds those frames. *)
Theorem ins_seg_converts_translated_frames args h bdd100k_config :
  mode args = ins_seg ->
  config_by_precedence args (load (input args) (nproc args)).2 =
    Some bdd100k_config ->
  let r := main args h in
  let ld := load (input args) (nproc args) in
  let tr := bdd100k_to_scalabel (ds_frames ld.2) bdd100k_config ld.1 in
  (exists pre,
     let u := seg_to_rles tr.2 (output args) (scalabel bdd100k_config)
                (nproc args) tr.1 in
     r = MkRun (pre ++ events u) (final u) (result u) /\
     List.filter is_save pre = [] /\
     last pre = Some (EvTranslate (ds_frames ld.2))) /\
  List.filter is_save (events r) =
    match result r with
    | inl _ => []
    | inr _ => [EvSave (output args) (snapshot (final r) <$> tr.2)]
    end.
Proof.
  intros Em Hcfg. cbv zeta.
  assert (mode args <> lane_mark) as Hmode by congruence.
  destruct (main_run args h bdd100k_config Hmode Hcfg) as (convert & Hc & ->).
  cbv zeta.
  rewrite Em in Hc. injection Hc as <-.
  unfold frames_to_convert. rewrite mode_translated, Em.
  set (ld := load (input args) (nproc args)).
  set (tr := bdd100k_to_scalabel (ds_frames ld.2) bdd100k_config ld.1).
  assert (List.filter is_save (config_loads args ld.2) = []) as Hnosave
    by now apply config_loads_filter.
  split.
  - exists (EvLoad (input args) (nproc args)
              :: config_loads args ld.2 ++ [EvTranslate (ds_frames ld.2)]).
    split; [|split].
    + cbn [app]. now rewrite <- !app_assoc.
    + cbn [List.filter is_save]. rewrite List.filter_app, Hnosave. reflexivity.
    + rewrite app_comm_cons. apply last_snoc.
  - cbn [events final result List.filter is_save].
    rewrite !List.filter_app, Hnosave. cbn [List.filter is_save app].
    unfold seg_to_rles.
    destruct (imageSize (scalabel bdd100k_config)) as [s|]; [|reflexivity].
    apply frames_to_rle_saves.
Qed.

End Pipeline.

Arguments label_id {Poly2D RLE Box2D}.
Arguments category {Poly2D RLE Box2D}.
Arguments score {Poly2D RLE Box2D}.
Arguments poly2d {Poly2D RLE Box2D}.
Arguments rle {Poly2D RLE Box2D}.
Arguments box2d {Poly2D RLE Box2D}.
Arguments Build_Label {Poly2D RLE Box2D}.
Arguments sf_name {Poly2D RLE Box2D}.
Arguments sf_videoName {Poly2D RLE Box2D}.
Arguments sf_frameIndex {Poly2D RLE Box2D}.
Arguments sf_labels {Poly2D RLE Box2D}.
Arguments Build_SavedFrame {Poly2D RLE Box2D}.
Arguments EvLoad {Poly2D RLE Box2D}.
Arguments EvLoadConfig {Poly2D RLE Box2D}.
Arguments EvTranslate {Poly2D RLE Box2D}.
Arguments EvMakedirs {Poly2D RLE Box2D}.
Arguments EvRasterize {Poly2D RLE Box2D}.
Arguments EvSave {Poly2D RLE Box2D}.
Arguments MkRun {Poly2D RLE Box2D A}.
Arguments events {Poly2D RLE Box2D A}.
Arguments final {Poly2D RLE Box2D A}.
Arguments result {Poly2D RLE Box2D A}.
Arguments score_of {Poly2D RLE Box2D}.
Arguments poly2d_of {Poly2D RLE Box2D}.
Arguments score_key {Poly2D RLE Box2D}.
Arguments render_order {Poly2D RLE Box2D}.
Arguments snapshot {Poly2D RLE Box2D}.
Arguments deref_all {Poly2D RLE Box2D}.
Arguments convert_frame {Poly2D RLE Box2D}.
Arguments frames_to_rle {Poly2D RLE Box2D}.
Arguments frames_to_rles {Poly2D RLE Box2D}.
Arguments seg_to_rles {Poly2D RLE Box2D}.
Arguments segtrack_to_rles {Poly2D RLE Box2D}.
Arguments convert_funcs {Poly2D RLE Box2D}.
Arguments main {Poly2D RLE Box2D BDD100KConfig}.
Arguments set_rle {Poly2D RLE Box2D}.
Arguments assign_rles {Poly2D RLE Box2D}.
Arguments without_mask {Poly2D RLE Box2D}.
Arguments sf_without_masks {Poly2D RLE Box2D}.
Arguments same_but_masks {Poly2D RLE Box2D}.
Arguments is_save {Poly2D RLE Box2D}.
Arguments is_rasterize {Poly2D RLE Box2D}.
Arguments is_conversion_event {Poly2D RLE Box2D}.
Arguments shape_bearing {Poly2D RLE Box2D}.
Arguments rasterizer_returns {Poly2D RLE}.
Arguments config_by_precedence {BDD100KConfig}.
Arguments frames_to_convert {Poly2D RLE Box2D BDD100KConfig}.
Arguments resolve_config {Poly2D RLE Box2D BDD100KConfig}.
Arguments frame_poly2ds {Poly2D RLE Box2D}.
Arguments frame_pairs {Poly2D RLE Box2D}.
Arguments last_rle {RLE}.
Arguments save_path {Poly2D RLE Box2D}.
Arguments is_load {Poly2D RLE Box2D}.

(** ** Reference collaborators, to run the pipeline on concrete inputs

    Polygons are named by strings; the mask of a polygon set records the
    set it was rendered from, and the box of a mask records the mask. *)

Definition tag_rasterize (shape : ImageSize) (poly2ds : list (list string)) :
    option (list (list string)) :=
  Some poly2ds.

Definition tag_box (r : list string) : list string := "box" :: r.

(** An answer for keys with a NaN among them: every element stays where it
    is.  No input below has such a key. *)
Definition nan_in_place (keys : list float) : list nat := seq 0 (length keys).

Definition same_video (f g : Frame) : bool :=
  bool_decide (videoName f = videoName g).

(** Frames sharing a sequence identifier land in one group, in their input
    order; groups appear in first-seen order. *)
Fixpoint group_by_videoName (frames : list Frame) : list (list Frame) :=
  match frames with
  | [] => []
  | f :: rest =>
      let groups := group_by_videoName rest in
      let mine := List.filter (fun g => forallb (same_video f) g) groups in
      let others := List.filter (fun g => negb (forallb (same_video f) g)) groups in
      (f :: concat mine) :: others
  end.

(** The stable sort of a group by [frameIndex]. *)
Fixpoint insert_by_frameIndex (f : Frame) (l : list Frame) : list Frame :=
  match l with
  | [] => [f]
  | g :: l' =>
      if (default 0 (frameIndex g) <? default 0 (frameIndex f))%Z
      then g :: insert_by_frameIndex f l'
      else f :: g :: l'
  end.

Definition sort_by_frameIndex (l : list Frame) : list Frame :=
  foldr insert_by_frameIndex [] l.

(** A stand-in for the external grouper [group_and_sort] of scalabel, with
    its behaviour on frames that carry a [frameIndex]: it fails its
    assertion on a frame without [videoName]; otherwise it groups the
    frames by [videoName] and sorts every group by [frameIndex]. *)
Definition group_and_sort_frames (frames : list Frame) : option (list (list Frame)) :=
  if forallb (fun f => bool_decide (is_Some (videoName f))) frames
  then Some (sort_by_frameIndex <$> group_by_videoName frames)
  else None.

Abbreviation SLabel := (Label string (list string) (list string)).

(** A loader that returns a fixed store and dataset, whatever the path. *)
Definition const_load (h : gmap loc SLabel) (ds : Dataset) (path : string) (n : Z) :
    gmap loc SLabel * Dataset := (h, ds).

(** Configurations are plain scalabel configs; a named or file-backed
    configuration carries the given image size. *)
Definition const_config (c : Config) (name_or_path : string) : Config := c.

(** A configuration class with the one field [scalabel]: constructing it
    with another keyword is a validation error. *)
Definition strict_init (keyword : string) (c : Config) : option Config :=
  if String.eqb keyword "scalabel" then Some c else None.

(** A translation that marks the frames it returns: it prefixes their
    names. *)
Definition mark_translate (frames : list Frame) (cfg : Config) (h : gmap loc SLabel) :
    gmap loc SLabel * list Frame :=
  (h, (fun f => {| name := "t:" +:+ name f; videoName := videoName f;
                   frameIndex := frameIndex f; labels := labels f |}) <$> frames).

Definition mk_label (i : string) (s : option float) (p : option (list string)) : SLabel :=
  {| label_id := i; category := None; score := s; poly2d := p;
     rle := None; box2d := None |}.

Definition mk_frame (n : string) (v : option string) (ls : list loc) : Frame :=
  {| name := n; videoName := v; frameIndex := None; labels := Some ls |}.

(** A frame of a video: it has a sequence identifier and an index. *)
Definition mk_video_frame (n v : string) (i : Z) (ls : list loc) : Frame :=
  {| name := n; videoName := Some v; frameIndex := Some i; labels := Some ls |}.

Definition shape_720p : ImageSize := {| width := 1280; height := 720 |}.

(** ** Concrete stores, frames and arguments *)

(** Two labels without scores: the first has no polygon shape. *)
Definition store_shapeless_first : gmap loc SLabel :=
  <[1%positive := mk_label "a" None None]>
    (<[2%positive := mk_label "b" None (Some ["P"])]> ∅).

(** The spec's scenario: shapes A and B with scores 0.9 and 0.2. *)
Definition store_scored : gmap loc SLabel :=
  <[1%positive := mk_label "a" (Some 0.9%float) (Some ["A"])]>
    (<[2%positive := mk_label "b" (Some 0.2%float) (Some ["B"])]> ∅).

(** One label with a score, one without. *)
Definition store_partly_scored : gmap loc SLabel :=
  <[1%positive := mk_label "a" (Some 0.9%float) (Some ["A"])]>
    (<[2%positive := mk_label "b" None (Some ["B"])]> ∅).

(** Two labels with the same score, and a third with a lower one. *)
Definition store_tied : gmap loc SLabel :=
  <[1%positive := mk_label "a" (Some 0.5%float) (Some ["A"])]>
    (<[2%positive := mk_label "b" (Some 0.5%float) (Some ["B"])]>
       (<[3%positive := mk_label "c" (Some 0.2%float) (Some ["C"])]> ∅)).

Definition frame_two_labels : Frame := mk_frame "f" None [1%positive; 2%positive].

Definition frame_unlabelled : Frame :=
  {| name := "g"; videoName := None; frameIndex := None; labels := None |}.

Definition config_720p : Config := {| imageSize := Some shape_720p |}.
Definition config_no_size : Config := {| imageSize := None |}.

(** The spec's scenario: sequence identifiers v1, v2, v1. *)
Definition frames_v1_v2_v1 : list Frame :=
  [mk_video_frame "1" "v1" 0 []; mk_video_frame "2" "v2" 0 [];
   mk_video_frame "3" "v1" 1 []].

(** The groups of the scenario. *)
Definition groups_v1_v2 : list (list Frame) :=
  [[mk_video_frame "1" "v1" 0 []; mk_video_frame "3" "v1" 1 []];
   [mk_video_frame "2" "v2" 0 []]].

Definition dataset_embedded : Dataset :=
  {| ds_frames := [frame_two_labels]; ds_config := Some config_720p |}.

Definition dataset_videos : Dataset :=
  {| ds_frames := frames_v1_v2_v1; ds_config := None |}.

Definition args_sem_seg : Args :=
  {| input := "in.json"; output := "out.json"; mode := sem_seg; nproc := 4;
     config := None |}.

(** [main] on the reference collaborators: the loader returns [ds] and
    every config file holds [file_config]. *)
Definition sample_main (file_config : Config) (ds : Dataset) (args : Args) :
    M string (list string) (list string) unit :=
  main (fun c : Config => c) strict_init nan_in_place tag_rasterize tag_box
       group_and_sort_frames (const_load store_scored ds)
       (const_config file_config) mark_translate args.

(** ** The theorems at concrete inputs *)

(** The spec's scenario for the rendering order: [A(0.9), B(0.2)] is
    submitted as [B, A], and each label gets the mask of its own shape. *)
Example scenario_scores_sorted :
  let r := convert_frame nan_in_place tag_rasterize tag_box shape_720p
             frame_two_labels store_scored in
  events r = [EvRasterize shape_720p [["B"]; ["A"]]] /\
  rle <$> final r !! 1%positive = Some (Some ["A"]) /\
  rle <$> final r !! 2%positive = Some (Some ["B"]).
Proof. vm_compute. repeat split; reflexivity. Qed.

(** The spec's scenario with one score missing: no sorting. *)
Example scenario_partly_scored :
  events (convert_frame nan_in_place tag_rasterize tag_box shape_720p
            frame_two_labels store_partly_scored)
  = [EvRasterize shape_720p [["A"]; ["B"]]].
Proof. vm_compute. reflexivity. Qed.

Lemma shapeless_label_receives_mask_witness :
  let r := convert_frame nan_in_place tag_rasterize tag_box shape_720p
             frame_two_labels store_shapeless_first in
  events r = [EvRasterize shape_720p [["P"]]] /\
  final r !! 1%positive = Some (set_rle tag_box ["P"] (mk_label "a" None None)) /\
  final r !! 2%positive = Some (mk_label "b" None (Some ["P"])).
Proof.
  apply (shapeless_label_receives_mask string (list string) (list string)
           nan_in_place tag_rasterize tag_box shape_720p frame_two_labels
           store_shapeless_first
           1%positive 2%positive (mk_label "a" None None)
           (mk_label "b" None (Some ["P"])) ["P"] ["P"]);
    first [reflexivity | discriminate].
Defined.

Lemma rasterizer_input_order_witness :
  labels frame_two_labels = Some [1%positive; 2%positive] /\
  (forall l, l ∈ [1%positive; 2%positive] ->
             exists s, score_of store_scored l = Some s /\ is_nan s = false) /\
  (exists l, l ∈ [1%positive; 2%positive] /\ score_of store_partly_scored l = None) /\
  (exists shaped polys,
     events (convert_frame nan_in_place tag_rasterize tag_box shape_720p
               frame_two_labels store_scored) = [EvRasterize shape_720p polys] /\
     Forall2 (fun l p => poly2d_of store_scored l = Some p) shaped polys /\
     Permutation shaped (shape_bearing store_scored [1%positive; 2%positive]) /\
     StronglySorted (key_le (score_key store_scored)) shaped) /\
  (exists polys,
     events (convert_frame nan_in_place tag_rasterize tag_box shape_720p
               frame_two_labels store_partly_scored)
     = [EvRasterize shape_720p polys] /\
     Forall2 (fun l p => poly2d_of store_partly_scored l = Some p)
             (shape_bearing store_partly_scored [1%positive; 2%positive]) polys).
Proof.
  assert (forall l, l ∈ [1%positive; 2%positive] ->
            exists s, score_of store_scored l = Some s /\ is_nan s = false) as Hscored.
  { intros l Hl. apply elem_of_cons in Hl as [->|Hl].
    - exists 0.9%float. split; reflexivity.
    - apply list_elem_of_singleton in Hl as ->.
      exists 0.2%float. split; reflexivity. }
  assert (exists l, l ∈ [1%positive; 2%positive] /\
                    score_of store_partly_scored l = None) as Hpartly.
  { exists 2%positive. split; [right; left | reflexivity]. }
  split; [reflexivity|]. split; [exact Hscored|]. split; [exact Hpartly|]. split.
  - destruct (rasterizer_input_order string (list string) (list string)
                nan_in_place tag_rasterize tag_box shape_720p frame_two_labels
                store_scored [1%positive; 2%positive] eq_refl ltac:(discriminate))
      as (shaped & polys & Hev & Hpolys & Hperm & Hsorted & _).
    exists shaped, polys. auto.
  - destruct (rasterizer_input_order string (list string) (list string)
                nan_in_place tag_rasterize tag_box shape_720p frame_two_labels
                store_partly_scored [1%positive; 2%positive] eq_refl
                ltac:(discriminate))
      as (shaped & polys & Hev & Hpolys & _ & _ & Horig).
    exists polys. rewrite <- (Horig Hpartly). auto.
Defined.

Lemma frame_without_labels_is_noop_witness :
  labels frame_unlabelled = None /\
  convert_frame nan_in_place tag_rasterize tag_box shape_720p frame_unlabelled
                store_scored =
    MkRun [] store_scored (inr tt) /\
  forall h', snapshot h' frame_unlabelled = snapshot store_scored frame_unlabelled.
Proof.
  split; [reflexivity|].
  apply (frame_without_labels_is_noop string (list string) (list string)
           nan_in_place tag_rasterize tag_box shape_720p frame_unlabelled
           store_scored).
  left. reflexivity.
Defined.

(** A frame without a sequence identifier after one that has one. *)
Definition frames_one_unnamed : list Frame :=
  [mk_video_frame "1" "v1" 0 [];
   {| name := "2"; videoName := None; frameIndex := Some 1; labels := Some [] |}].

Lemma segtrack_missing_videoName_fails_witness :
  (exists f, f ∈ frames_one_unnamed /\ videoName f = None) /\
  let r := segtrack_to_rles nan_in_place tag_rasterize tag_box
             group_and_sort_frames frames_one_unnamed "out" config_720p 4
             store_scored in
  (exists msg, result r = inl (AssertionError msg)) /\
  events r = [] /\
  final r = store_scored.
Proof.
  assert (exists f, f ∈ frames_one_unnamed /\ videoName f = None) as Hunnamed.
  { eexists. split; [right; left | reflexivity]. }
  split; [exact Hunnamed|].
  apply (segtrack_missing_videoName_fails string (list string) (list string)
           nan_in_place tag_rasterize tag_box group_and_sort_frames
           frames_one_unnamed "out" config_720p 4 store_scored);
    [|exact Hunnamed].
  intros groups Hgroups. discriminate Hgroups.
Defined.

(** C3, as stated, fails: a frame whose sequence identifier is the empty
    string has no non-empty identifier, and the run succeeds, writing
    [out/.json]. *)
Lemma empty_videoName_is_dispatched :
  let f := mk_video_frame "1" "" 0 [1%positive] in
  let r := segtrack_to_rles nan_in_place tag_rasterize tag_box
             group_and_sort_frames [f] "out" config_720p 4 store_scored in
  videoName f = Some "" /\
  result r = inr tt /\
  events r =
    [EvMakedirs "out";
     EvRasterize shape_720p [["A"]];
     EvSave "out/.json"
       [{| sf_name := "1"; sf_videoName := Some ""; sf_frameIndex := Some 0;
           sf_labels :=
             Some [set_rle tag_box ["A"]
                     (mk_label "a" (Some 0.9%float) (Some ["A"]))] |}]].
Proof. vm_compute. repeat split; reflexivity. Qed.

Lemma missing_imageSize_aborts_witness :
  let r := segtrack_to_rles nan_in_place tag_rasterize tag_box
             group_and_sort_frames frames_v1_v2_v1 "out" config_no_size 4
             store_scored in
  imageSize config_no_size = None /\
  (exists msg, result r = inl (AssertionError msg)) /\
  final r = store_scored /\
  events r = [EvMakedirs "out"].
Proof.
  split; [reflexivity|].
  apply (missing_imageSize_aborts string (list string) (list string)
           nan_in_place tag_rasterize tag_box group_and_sort_frames seg_track
           (segtrack_to_rles nan_in_place tag_rasterize tag_box
              group_and_sort_frames)
           frames_v1_v2_v1 "out" config_no_size 4 store_scored);
    reflexivity.
Defined.

(** C4, as stated, fails in [seg_track] mode: the run aborts on the missing
    image size, but it has created the output directory before. *)
Lemma seg_track_makes_directory_before_abort :
  let r := segtrack_to_rles nan_in_place tag_rasterize tag_box
             group_and_sort_frames frames_v1_v2_v1 "out" config_no_size 4
             store_scored in
  convert_funcs nan_in_place tag_rasterize tag_box group_and_sort_frames seg_track =
    Some (segtrack_to_rles nan_in_place tag_rasterize tag_box
            group_and_sort_frames) /\
  imageSize config_no_size = None /\
  result r = inl (AssertionError "Conversion requires imageSize in config.") /\
  events r = [EvMakedirs "out"] /\
  events r <> [].
Proof.
  cbv zeta. split; [reflexivity|]. split; [reflexivity|].
  vm_compute. repeat split; try reflexivity. discriminate.
Qed.

Lemma tag_rasterize_returns : rasterizer_returns tag_rasterize.
Proof. intros shape polys. unfold tag_rasterize. eauto. Defined.

Lemma groups_v1_v2_named :
  Forall (fun g => exists f0 tl v,
            g = f0 :: tl /\ videoName f0 = Some v /\ has_sep v = false)
         groups_v1_v2.
Proof. repeat constructor; eexists _, _, _; repeat split; reflexivity. Defined.

Lemma segtrack_one_file_per_group_witness :
  group_and_sort_frames frames_v1_v2_v1 = Some groups_v1_v2 /\
  let r := segtrack_to_rles nan_in_place tag_rasterize tag_box
             group_and_sort_frames frames_v1_v2_v1 "out" config_720p 4
             store_scored in
  result r = inr tt /\
  (exists rest, events r = EvMakedirs "out" :: rest) /\
  Forall2
    (fun g e =>
       exists f0 tl v saved,
         g = f0 :: tl /\ videoName f0 = Some v /\
         e = EvSave (os_path_join "out" (v +:+ ".json")) saved /\
         os_path_join "out" (v +:+ ".json") =
           "out" +:+ dir_sep "out" +:+ v +:+ ".json" /\
         sf_without_masks <$> saved =
           sf_without_masks <$> (snapshot store_scored <$> g))
    groups_v1_v2 (List.filter is_save (events r)).
Proof.
  split; [reflexivity|].
  apply (segtrack_one_file_per_group string (list string) (list string)
           nan_in_place tag_rasterize tag_box group_and_sort_frames
           frames_v1_v2_v1 "out" config_720p 4 store_scored shape_720p
           groups_v1_v2);
    [reflexivity | lia | exact tag_rasterize_returns | discriminate
    | reflexivity | exact groups_v1_v2_named].
Defined.

(** The files a run has saved, with the names of the frames they hold. *)
Definition saved_names (evs : list (Event string (list string) (list string))) :
    list (string * list string) :=
  omap (fun e => match e with
                 | EvSave p saved => Some (p, sf_name <$> saved)
                 | _ => None
                 end) evs.

(** The spec's scenario for [seg_track]: identifiers v1, v2, v1 give two
    files, [out/v1.json] with frames 1 and 3 and [out/v2.json] with frame 2. *)
Example scenario_v1_v2_v1 :
  let r := segtrack_to_rles nan_in_place tag_rasterize tag_box
             group_and_sort_frames frames_v1_v2_v1 "out" config_720p 4
             store_scored in
  saved_names (events r) = [("out/v1.json", ["1"; "3"]); ("out/v2.json", ["2"])].
Proof. vm_compute. reflexivity. Qed.

(** C5, as stated, fails: the frames of a group are written in the order
    the grouper returns them, and a grouper that sorts by [frameIndex]
    does not keep the input order.  Frame [a] comes first in the input and
    second in the file. *)
Lemma segtrack_writes_frames_in_grouper_order :
  let frames := [mk_video_frame "a" "v1" 1 []; mk_video_frame "b" "v1" 0 []] in
  let r := segtrack_to_rles nan_in_place tag_rasterize tag_box
             group_and_sort_frames frames "out" config_720p 4 store_scored in
  name <$> frames = ["a"; "b"] /\
  result r = inr tt /\
  saved_names (events r) = [("out/v1.json", ["b"; "a"])].
Proof. vm_compute. repeat split; reflexivity. Qed.

Lemma embedded_config_is_rejected_witness :
  mode args_sem_seg <> lane_mark /\
  config args_sem_seg = None /\
  ds_config dataset_embedded = Some config_720p /\
  strict_init "config" config_720p = None /\
  sample_main config_720p dataset_embedded args_sem_seg ∅ =
    MkRun [EvLoad "in.json" 4] store_scored (inl ValidationError).
Proof.
  assert (mode args_sem_seg <> lane_mark) as Hmode by discriminate.
  split; [exact Hmode|]. do 3 (split; [reflexivity|]).
  exact (embedded_config_is_rejected string (list string) (list string) Config
           (fun c => c) strict_init nan_in_place tag_rasterize tag_box
           group_and_sort_frames (const_load store_scored dataset_embedded)
           (const_config config_720p) mark_translate args_sem_seg ∅ config_720p
           Hmode eq_refl eq_refl eq_refl).
Defined.

Definition args_explicit_config : Args :=
  {| input := "in.json"; output := "out.json"; mode := sem_seg; nproc := 4;
     config := Some "cfg.toml" |}.

Definition args_ins_seg : Args :=
  {| input := "in.json"; output := "out.json"; mode := ins_seg; nproc := 4;
     config := Some "cfg.toml" |}.

Definition args_seg_track : Args :=
  {| input := "in.json"; output := "out"; mode := seg_track; nproc := 4;
     config := Some "cfg.toml" |}.

(** The frame [mark_translate] returns for [frame_two_labels]. *)
Definition frame_two_labels_translated : Frame :=
  mk_frame "t:f" None [1%positive; 2%positive].


(** The translated frames are the ones converted: in [ins_seg] mode the
    file holds the frame the translation returned. *)
Example scenario_ins_seg :
  let r := sample_main config_720p dataset_embedded args_ins_seg ∅ in
  result r = inr tt /\
  saved_names (events r) = [("out.json", ["t:f"])].
Proof. vm_compute. split; reflexivity. Qed.

Lemma frames_to_rle_keeps_label_order_witness :
  let r := frames_to_rle nan_in_place tag_rasterize tag_box "out.json" shape_720p
             [frame_two_labels] store_scored in
  result r = inr tt /\
  same_but_masks store_scored (final r) /\
  exists pre saved,
    events r = pre ++ [EvSave "out.json" saved] /\
    List.filter is_save pre = [] /\
    saved = snapshot (final r) <$> [frame_two_labels] /\
    sf_without_masks <$> saved =
      sf_without_masks <$> (snapshot store_scored <$> [frame_two_labels]).
Proof.
  pose proof (frames_to_rle_keeps_label_order string (list string) (list string)
                nan_in_place tag_rasterize tag_box "out.json" shape_720p
                [frame_two_labels] store_scored) as [Hsame Hsaved].
  split; [reflexivity|]. split; [exact Hsame|]. exact (Hsaved eq_refl).
Defined.

Lemma seg_to_rles_nproc_irrelevant_witness :
  seg_to_rles nan_in_place tag_rasterize tag_box [frame_two_labels] "out.json"
              config_720p 1 store_scored =
    seg_to_rles nan_in_place tag_rasterize tag_box [frame_two_labels] "out.json"
                config_720p 0 store_scored /\
  seg_to_rles nan_in_place tag_rasterize tag_box [frame_two_labels] "out.json"
              config_720p 1 store_scored =
    frames_to_rle nan_in_place tag_rasterize tag_box "out.json" shape_720p
                  [frame_two_labels] store_scored.
Proof.
  pose proof (seg_to_rles_nproc_irrelevant string (list string) (list string)
                nan_in_place tag_rasterize tag_box [frame_two_labels] "out.json"
                config_720p 1 0 store_scored) as [Hsame Hseq].
  split; [exact Hsame|]. exact (Hseq shape_720p eq_refl).
Defined.

(** ** Further concrete inputs *)

(** A rasterizer that raises on a polygon named "bad". *)
Definition picky_rasterize (shape : ImageSize) (poly2ds : list (list string)) :
    option (list (list string)) :=
  if forallb (forallb (fun p => negb (String.eqb p "bad"))) poly2ds
  then Some poly2ds else None.

(** Three labels; the third has a polygon the picky rasterizer refuses and
    already carries a mask. *)
Definition store_three : gmap loc SLabel :=
  <[3%positive := {| label_id := "c"; category := None; score := None;
                     poly2d := Some ["bad"]; rle := Some ["old"];
                     box2d := Some ["box"; "old"] |}]> store_scored.

Definition frame_third_label : Frame := mk_frame "g" None [3%positive].

(** Two labels without any polygon shape. *)
Definition store_no_shapes : gmap loc SLabel :=
  <[1%positive := mk_label "a" None None]>
    (<[2%positive := mk_label "b" None None]> ∅).

(** ** The further properties at concrete inputs *)

(** Converting twice: the first run writes masks, the second repeats it. *)
Lemma frames_to_rle_idempotent_witness :
  let r := frames_to_rle nan_in_place tag_rasterize tag_box "out.json" shape_720p
             [frame_two_labels] store_scored in
  final r <> store_scored /\
  frames_to_rle nan_in_place tag_rasterize tag_box "out.json" shape_720p
                [frame_two_labels] (final r) = r.
Proof.
  split;
    [|exact (frames_to_rle_idempotent _ _ _ nan_in_place tag_rasterize tag_box
               "out.json" shape_720p [frame_two_labels] store_scored)].
  intros H. apply (f_equal (fun m => rle <$> m !! 1%positive)) in H.
  vm_compute in H. discriminate.
Defined.

Lemma one_rasterizer_call_per_labelled_frame_witness :
  List.filter is_rasterize
    (events (frames_to_rle nan_in_place tag_rasterize tag_box "out.json"
               shape_720p [frame_unlabelled; frame_two_labels] store_scored)) =
  [EvRasterize shape_720p [["B"]; ["A"]]].
Proof.
  exact (one_rasterizer_call_per_labelled_frame _ _ _ nan_in_place tag_rasterize
           tag_box "out.json" shape_720p [frame_unlabelled; frame_two_labels]
           store_scored tag_rasterize_returns).
Defined.

Lemma rasterizer_error_stops_the_unit_witness :
  let r := frames_to_rle nan_in_place picky_rasterize tag_box "out.json"
             shape_720p
             ([frame_two_labels] ++ frame_third_label :: [frame_unlabelled])
             store_three in
  result r = inl RasterError /\
  List.filter is_save (events r) = [] /\
  forall post',
    frames_to_rle nan_in_place picky_rasterize tag_box "out.json" shape_720p
      ([frame_two_labels] ++ frame_third_label :: post') store_three = r.
Proof.
  apply (rasterizer_error_stops_the_unit _ _ _ nan_in_place picky_rasterize
           tag_box "out.json" shape_720p [frame_two_labels] frame_third_label
           [frame_unlabelled] store_three [3%positive]);
    [reflexivity | discriminate | reflexivity].
Defined.

Lemma labels_outside_frames_untouched_witness :
  final (frames_to_rle nan_in_place tag_rasterize tag_box "out.json" shape_720p
           [frame_two_labels] store_three) !! 3%positive =
  store_three !! 3%positive.
Proof.
  apply (labels_outside_frames_untouched _ _ _ nan_in_place tag_rasterize tag_box
           "out.json" shape_720p [frame_two_labels] store_three 3%positive).
  intros f ls Hf E. apply list_elem_of_singleton in Hf as ->.
  injection E as <-. intros Hin.
  apply elem_of_cons in Hin as [Hin|Hin]; [discriminate|].
  apply list_elem_of_singleton in Hin. discriminate.
Defined.

Lemma labels_beyond_masks_untouched_witness :
  final (convert_frame nan_in_place tag_rasterize tag_box shape_720p
           frame_two_labels store_shapeless_first) !! 2%positive =
  store_shapeless_first !! 2%positive.
Proof.
  apply (labels_beyond_masks_untouched _ _ _ nan_in_place tag_rasterize tag_box
           shape_720p frame_two_labels store_shapeless_first
           [1%positive; 2%positive] [["P"]] 1%nat 2%positive);
    [reflexivity | | reflexivity | reflexivity | cbn; lia].
  apply NoDup_cons. split; [|apply NoDup_singleton].
  intros Hin. apply list_elem_of_singleton in Hin. discriminate.
Defined.

Lemma equal_scores_keep_frame_order_witness :
  render_order nan_in_place store_tied [1%positive; 2%positive; 3%positive] =
    [3%positive; 1%positive; 2%positive] /\
  List.filter (fun l => (score_key store_tied l =? 0.5)%float)
    (render_order nan_in_place store_tied [1%positive; 2%positive; 3%positive]) =
  [1%positive; 2%positive].
Proof.
  split; [vm_compute; reflexivity|].
  apply (equal_scores_keep_frame_order _ _ _ nan_in_place store_tied
           [1%positive; 2%positive; 3%positive] 0.5%float).
  repeat constructor.
Defined.

Lemma frame_without_shapes_still_rasterized_witness :
  events (convert_frame nan_in_place tag_rasterize tag_box shape_720p
            frame_two_labels store_no_shapes) = [EvRasterize shape_720p []] /\
  convert_frame nan_in_place tag_rasterize tag_box shape_720p frame_two_labels
                store_no_shapes
  = MkRun [EvRasterize shape_720p []] store_no_shapes (inr tt).
Proof.
  destruct (frame_without_shapes_still_rasterized _ _ _ nan_in_place tag_rasterize
              tag_box shape_720p frame_two_labels store_no_shapes
              [1%positive; 2%positive] eq_refl ltac:(discriminate))
    as [Hev Hrun].
  - intros l Hl. apply elem_of_cons in Hl as [->|Hl]; [reflexivity|].
    apply list_elem_of_singleton in Hl as ->. reflexivity.
  - split; [exact Hev | exact (Hrun eq_refl)].
Defined.


Lemma segtrack_files_distinct_witness :
  group_and_sort_frames frames_v1_v2_v1 = Some groups_v1_v2 /\
  group_ids groups_v1_v2 = ["v1"; "v2"] /\
  let saved :=
    omap save_path
      (events (segtrack_to_rles nan_in_place tag_rasterize tag_box
                 group_and_sort_frames frames_v1_v2_v1 "out" config_720p 4
                 store_scored)) in
  NoDup saved /\
  Forall (fun p => exists v,
            v ∈ group_ids groups_v1_v2 /\
            p = "out" +:+ dir_sep "out" +:+ v +:+ ".json") saved.
Proof.
  split; [reflexivity|]. split; [reflexivity|].
  apply (segtrack_files_distinct _ _ _ nan_in_place tag_rasterize tag_box
           group_and_sort_frames frames_v1_v2_v1 "out" config_720p 4 store_scored
           groups_v1_v2); [reflexivity | |];
    change (group_ids groups_v1_v2) with ["v1"; "v2"].
  - repeat constructor.
  - apply NoDup_cons. split; [|apply NoDup_singleton].
    intros Hin. apply list_elem_of_singleton in Hin. discriminate.
Defined.

Lemma segtrack_needs_a_worker_witness :
  segtrack_to_rles nan_in_place tag_rasterize tag_box group_and_sort_frames
                   frames_v1_v2_v1 "out" config_720p 0 store_scored =
    MkRun [EvMakedirs "out"] store_scored
          (inl (ValueError "Number of processes must be at least 1")).
Proof.
  apply (segtrack_needs_a_worker _ _ _ nan_in_place tag_rasterize tag_box
           group_and_sort_frames frames_v1_v2_v1 "out" config_720p 0 store_scored
           shape_720p groups_v1_v2); [reflexivity | reflexivity | | lia].
  repeat constructor; now eexists.
Defined.


Lemma frames_to_rles_waits_for_missing_units_witness :
  result (frames_to_rles nan_in_place tag_rasterize tag_box 2
            ["a.json"; "b.json"; "c.json"] [shape_720p; shape_720p]
            [[frame_two_labels]; [frame_unlabelled]] store_scored) =
    inl NeverReturns.
Proof.
  apply (frames_to_rles_waits_for_missing_units _ _ _ nan_in_place tag_rasterize
           tag_box 2 ["a.json"; "b.json"; "c.json"] [shape_720p; shape_720p]
           [[frame_two_labels]; [frame_unlabelled]] store_scored);
    [lia | cbn; lia | cbn; lia].
Defined.

Lemma output_is_a_directory_only_for_seg_track_witness :
  (forall p,
     EvMakedirs p ∈ events (sample_main config_720p dataset_embedded
                              args_explicit_config ∅) -> False) /\
  EvMakedirs "out" ∈ events (sample_main config_720p dataset_videos
                               args_seg_track ∅).
Proof.
  split.
  - intros p Hp.
    destruct (proj1 (output_is_a_directory_only_for_seg_track _ _ _ Config
                       (fun c => c) strict_init nan_in_place tag_rasterize
                       tag_box group_and_sort_frames
                       (const_load store_scored dataset_embedded)
                       (const_config config_720p) mark_translate
                       args_explicit_config ∅) p Hp) as [Hmode _].
    discriminate Hmode.
  - exact (proj2 (output_is_a_directory_only_for_seg_track _ _ _ Config
                    (fun c => c) strict_init nan_in_place tag_rasterize tag_box
                    group_and_sort_frames
                    (const_load store_scored dataset_videos)
                    (const_config config_720p) mark_translate args_seg_track ∅)
                 config_720p
                 (sort_by_frameIndex <$>
                    group_by_videoName (mark_translate frames_v1_v2_v1 config_720p
                                          store_scored).2)
                 eq_refl eq_refl eq_refl).
Defined.

Lemma explicit_config_without_imageSize_fails_witness :
  ds_config dataset_embedded = Some config_720p /\
  (exists msg, result (sample_main config_no_size dataset_embedded
                         args_explicit_config ∅) = inl (AssertionError msg)) /\
  List.filter is_save (events (sample_main config_no_size dataset_embedded
                                 args_explicit_config ∅)) = [] /\
  List.filter is_rasterize (events (sample_main config_no_size dataset_embedded
                                      args_explicit_config ∅)) = [].
Proof.
  split; [reflexivity|].
  apply (explicit_config_without_imageSize_fails _ _ _ Config
           (fun c => c) strict_init nan_in_place tag_rasterize tag_box
           group_and_sort_frames (const_load store_scored dataset_embedded)
           (const_config config_no_size) mark_translate args_explicit_config ∅
           "cfg.toml"); [discriminate | reflexivity | reflexivity].
Defined.

Lemma main_loads_input_once_witness :
  exists rest,
    events (sample_main config_720p dataset_embedded args_explicit_config ∅) =
      EvLoad "in.json" 4 :: rest /\
    List.filter is_load rest = [].
Proof.
  apply (main_loads_input_once _ _ _ Config
           (fun c => c) strict_init nan_in_place tag_rasterize tag_box
           group_and_sort_frames (const_load store_scored dataset_embedded)
           (const_config config_720p) mark_translate args_explicit_config ∅).
  discriminate.
Defined.

Lemma ins_seg_converts_translated_frames_witness :
  let r := sample_main config_720p dataset_embedded args_ins_seg ∅ in
  (exists pre,
     let u := seg_to_rles nan_in_place tag_rasterize tag_box
                [frame_two_labels_translated] "out.json" config_720p 4
                store_scored in
     r = MkRun (pre ++ events u) (final u) (result u) /\
     List.filter is_save pre = [] /\
     last pre = Some (EvTranslate [frame_two_labels])) /\
  List.filter is_save (events r) =
    match result r with
    | inl _ => []
    | inr _ => [EvSave "out.json"
                  (snapshot (final r) <$> [frame_two_labels_translated])]
    end.
Proof.
  exact (ins_seg_converts_translated_frames _ _ _ Config
           (fun c => c) strict_init nan_in_place tag_rasterize tag_box
           group_and_sort_frames (const_load store_scored dataset_embedded)
           (const_config config_720p) mark_translate args_ins_seg ∅ config_720p
           eq_refl eq_refl).
Defined.
